(** * Task overlay: services and theme coordinator

    A shallow embedding of the core of the task overlay application:
    - [PomodoroService] (core/pomodoro-service.js, the interval timer),
    - [TodoistService]  (core/todoist-service.js, the task list and cursor),
    - [EventBus]        (core/event-bus.js, a thin wrapper over Node's
                         EventEmitter),
    - [ThemeManager]    (the theme registry and coordinator),
    followed by the properties proved of each.

    JavaScript objects are records, arrays are lists, [Map]s that are
    iterated in insertion order are association lists, plain settings
    objects are [gmap]s keyed by property name.  Numbers are integers
    ([Z]); [null]/[undefined] are [None].  Every service keeps, next to
    its own fields, the list of events it published, in publication
    order, so that statements about "the next event" can be made. *)

From Stdlib Require Import ZArith Lia.
From stdpp Require Import base option list strings gmap.

Local Open Scope string_scope.
Local Open Scope Z_scope.
Local Open Scope list_scope.

(** ** Interval timer (core/pomodoro-service.js) *)

Module PomodoroService.

(** [this.state] *)
Record State := mkState {
  isActive : bool;
  isBreak : bool;
  timeRemaining : Z;            (* in seconds *)
  workTime : Z;                 (* in minutes *)
  breakTime : Z;                (* in minutes *)
  workProjectId : option string;
  breakProjectId : option string;
  projectTaskMemory : gmap string Z
}.

(** What [settingsService.getPomodoroSettings()] hands out and
    [savePomodoroSettings] stores. *)
Record Settings := mkSettings {
  s_workTime : Z;
  s_breakTime : Z;
  s_workProjectId : option string;
  s_breakProjectId : option string;
  s_projectTaskMemory : gmap string Z
}.

(** Events published on the bus.  Payloads that are [this.getState()]
    carry a copy of the state at publication time. *)
Inductive Event :=
| TIMER_STARTED (st : State)
| TIMER_PAUSED (st : State)
| TIMER_RESET (st : State)
| TIMER_TICK (st : State)
| TIMER_COMPLETED (wasBreak : bool) (nextMode : string)
| WORK_STARTED (st : State)
| BREAK_STARTED (st : State)
| SETTINGS_CHANGED (st : State)
| STORE_CHANGED (area : string).   (* 'settings:changed' from the store *)

(** The service object: its state, whether [timerInterval] holds a live
    interval handle, the persisted settings, and the published events. *)
Record Service := mkService {
  state : State;
  timerInterval : bool;
  stored : Settings;
  published : list Event
}.

Definition set_state (f : State -> State) (p : Service) : Service :=
  mkService (f (state p)) (timerInterval p) (stored p) (published p).

Definition set_isActive (b : bool) (st : State) : State :=
  mkState b (isBreak st) (timeRemaining st) (workTime st) (breakTime st)
          (workProjectId st) (breakProjectId st) (projectTaskMemory st).

Definition set_isBreak (b : bool) (st : State) : State :=
  mkState (isActive st) b (timeRemaining st) (workTime st) (breakTime st)
          (workProjectId st) (breakProjectId st) (projectTaskMemory st).

Definition set_timeRemaining (t : Z) (st : State) : State :=
  mkState (isActive st) (isBreak st) t (workTime st) (breakTime st)
          (workProjectId st) (breakProjectId st) (projectTaskMemory st).

Definition set_workTime (m : Z) (st : State) : State :=
  mkState (isActive st) (isBreak st) (timeRemaining st) m (breakTime st)
          (workProjectId st) (breakProjectId st) (projectTaskMemory st).

Definition set_breakTime (m : Z) (st : State) : State :=
  mkState (isActive st) (isBreak st) (timeRemaining st) (workTime st) m
          (workProjectId st) (breakProjectId st) (projectTaskMemory st).

Definition set_projects (w b : option string) (st : State) : State :=
  mkState (isActive st) (isBreak st) (timeRemaining st) (workTime st)
          (breakTime st) w b (projectTaskMemory st).

Definition set_timerInterval (b : bool) (p : Service) : Service :=
  mkService (state p) b (stored p) (published p).

(** [eventBus.publish(name, payload)], seen from the publisher. *)
Definition publish (e : Event) (p : Service) : Service :=
  mkService (state p) (timerInterval p) (stored p) (published p ++ [e]).

(** [x || d] on a number: [0] is falsy. *)
Definition num_or (x d : Z) : Z := if x =? 0 then d else x.

(** [x || null] on a string or [null]: the empty string is falsy. *)
Definition str_or_null (x : option string) : option string :=
  match x with
  | Some s => if String.eqb s "" then None else Some s
  | None => None
  end.

(** The mode-dependent full duration,
    [isBreak ? breakTime * 60 : workTime * 60]. *)
Definition phase_seconds (st : State) : Z :=
  if isBreak st then breakTime st * 60 else workTime st * 60.

(** [constructor()] followed by [loadSettings()]. *)
Definition loadSettings (cfg : Settings) (p : Service) : Service :=
  let st := state p in
  let st1 :=
    mkState (isActive st) (isBreak st) (timeRemaining st)
            (num_or (s_workTime cfg) 25) (num_or (s_breakTime cfg) 5)
            (str_or_null (s_workProjectId cfg))
            (str_or_null (s_breakProjectId cfg))
            (s_projectTaskMemory cfg) in
  set_state (fun _ => set_timeRemaining (phase_seconds st1) st1) p.

Definition constructor (cfg : Settings) : Service :=
  loadSettings cfg
    (mkService (mkState false false 0 25 5 None None ∅) false cfg []).

(** [saveSettings()]: writes the five persisted fields; the store
    announces the change. *)
Definition saveSettings (p : Service) : Service :=
  let st := state p in
  publish (STORE_CHANGED "pomodoro")
    (mkService st (timerInterval p)
       (mkSettings (workTime st) (breakTime st) (workProjectId st)
                   (breakProjectId st) (projectTaskMemory st))
       (published p)).

Definition getState (p : Service) : State := state p.

(** [start()] *)
Definition start (p : Service) : Service :=
  if isActive (state p) then p
  else
    let p1 := set_state (set_isActive true) p in
    let p2 := set_timerInterval true p1 in
    publish (TIMER_STARTED (getState p2)) p2.

(** [pause()] *)
Definition pause (p : Service) : Service :=
  if negb (isActive (state p)) then p
  else
    let p1 := set_state (set_isActive false) p in
    let p2 := if timerInterval p1 then set_timerInterval false p1 else p1 in
    publish (TIMER_PAUSED (getState p2)) p2.

(** [reset()] *)
Definition reset (p : Service) : Service :=
  let p1 := if timerInterval p then set_timerInterval false p else p in
  let p2 := set_state (set_isActive false) p1 in
  let p3 := set_state (set_isBreak false) p2 in
  let p4 := set_state (fun st => set_timeRemaining (workTime st * 60) st) p3 in
  publish (TIMER_RESET (getState p4)) p4.

(** [toggle()] *)
Definition toggle (p : Service) : Service :=
  if isActive (state p) then pause p else start p.

(** [setWorkTime(minutes)] *)
Definition setWorkTime (minutes : Z) (p : Service) : Service :=
  if (minutes <? 1) || (minutes >? 60) then p
  else
    let p1 := set_state (set_workTime minutes) p in
    let p2 :=
      if negb (isBreak (state p1)) && negb (isActive (state p1))
      then set_state (set_timeRemaining (minutes * 60)) p1 else p1 in
    let p3 := saveSettings p2 in
    publish (SETTINGS_CHANGED (getState p3)) p3.

(** [setBreakTime(minutes)] *)
Definition setBreakTime (minutes : Z) (p : Service) : Service :=
  if (minutes <? 1) || (minutes >? 60) then p
  else
    let p1 := set_state (set_breakTime minutes) p in
    let p2 :=
      if isBreak (state p1) && negb (isActive (state p1))
      then set_state (set_timeRemaining (minutes * 60)) p1 else p1 in
    let p3 := saveSettings p2 in
    publish (SETTINGS_CHANGED (getState p3)) p3.

(** [setProjectRelationship(workProjectId, breakProjectId)] *)
Definition setProjectRelationship (w b : option string) (p : Service)
  : Service :=
  let p1 := set_state (set_projects w b) p in
  let p2 := saveSettings p1 in
  publish (SETTINGS_CHANGED (getState p2)) p2.

(** [setWorkProjectId(projectId)] *)
Definition setWorkProjectId (w : option string) (p : Service) : Service :=
  let p1 := set_state (fun st => set_projects w (breakProjectId st) st) p in
  let p2 := saveSettings p1 in
  publish (SETTINGS_CHANGED (getState p2)) p2.

(** [setBreakProjectId(projectId)] *)
Definition setBreakProjectId (b : option string) (p : Service) : Service :=
  let p1 := set_state (fun st => set_projects (workProjectId st) b st) p in
  let p2 := saveSettings p1 in
  publish (SETTINGS_CHANGED (getState p2)) p2.

(** The shared tail of [_handleTimerComplete] and [startNextPhase]:
    toggle the mode, reload the countdown, announce the new mode, and
    call [start()]. *)
Definition enterNextPhase (p : Service) : Service :=
  let p1 := set_state (fun st => set_isBreak (negb (isBreak st)) st) p in
  let p2 := set_state (fun st => set_timeRemaining (phase_seconds st) st) p1 in
  let p3 :=
    if isBreak (state p2) then publish (BREAK_STARTED (getState p2)) p2
    else publish (WORK_STARTED (getState p2)) p2 in
  start p3.

(** [_handleTimerComplete()] *)
Definition _handleTimerComplete (p : Service) : Service :=
  let p1 := if timerInterval p then set_timerInterval false p else p in
  let p2 :=
    publish (TIMER_COMPLETED (isBreak (state p1))
               (if negb (isBreak (state p1)) then "break" else "work")) p1 in
  enterNextPhase p2.

(** [_handleTimerCompleteWithoutAutoStart()] *)
Definition _handleTimerCompleteWithoutAutoStart (p : Service) : Service :=
  let p1 := if timerInterval p then set_timerInterval false p else p in
  publish (TIMER_COMPLETED (isBreak (state p1))
             (if negb (isBreak (state p1)) then "break" else "work")) p1.

(** [startNextPhase()] *)
Definition startNextPhase (p : Service) : Service := enterNextPhase p.

(** [_tick()] *)
Definition _tick (p : Service) : Service :=
  if negb (isActive (state p)) then p
  else
    let p1 :=
      set_state (fun st => set_timeRemaining (timeRemaining st - 1) st) p in
    let p2 := publish (TIMER_TICK (getState p1)) p1 in
    if timeRemaining (state p2) <=? 0 then _handleTimerComplete p2 else p2.

(** One period of the scheduler: the callback installed by
    [setInterval] runs only while the handle is live. *)
Definition second_elapses (p : Service) : Service :=
  if timerInterval p then _tick p else p.

(** The calls a client (or the scheduler) can make. *)
Inductive Op :=
| Start | Pause | Reset | Toggle
| SetWorkTime (minutes : Z) | SetBreakTime (minutes : Z)
| SetProjectRelationship (w b : option string)
| SetWorkProjectId (w : option string)
| SetBreakProjectId (b : option string)
| StartNextPhase
| HandleTimerCompleteWithoutAutoStart
| SecondElapses.

Definition step (o : Op) (p : Service) : Service :=
  match o with
  | Start => start p
  | Pause => pause p
  | Reset => reset p
  | Toggle => toggle p
  | SetWorkTime m => setWorkTime m p
  | SetBreakTime m => setBreakTime m p
  | SetProjectRelationship w b => setProjectRelationship w b p
  | SetWorkProjectId w => setWorkProjectId w p
  | SetBreakProjectId b => setBreakProjectId b p
  | StartNextPhase => startNextPhase p
  | HandleTimerCompleteWithoutAutoStart =>
      _handleTimerCompleteWithoutAutoStart p
  | SecondElapses => second_elapses p
  end.

Definition run (ops : list Op) (p : Service) : Service :=
  fold_left (fun q o => step o q) ops p.






(** The events published since an earlier moment of the same service. *)
Definition published_since (before after : Service) : list Event :=
  drop (length (published before)) (published after).



(** *** Task memory, and what the operations keep *)

Definition set_memory (m : gmap string Z) (st : State) : State :=
  mkState (isActive st) (isBreak st) (timeRemaining st) (workTime st)
          (breakTime st) (workProjectId st) (breakProjectId st) m.

(** [rememberTaskForProject(projectId, taskIndex)]; [None] stands for a
    [null] project and for an [undefined] index. *)
Definition rememberTaskForProject (projectId : option string)
    (taskIndex : option Z) (p : Service) : Service :=
  match projectId, taskIndex with
  | Some pid, Some i =>
      saveSettings
        (set_state
           (fun st => set_memory (<[pid := i]> (projectTaskMemory st)) st) p)
  | _, _ => p
  end.


(** Calls of the service, the task memory included. *)
Inductive Action :=
| Do (o : Op)
| RememberTaskForProject (projectId : option string) (taskIndex : option Z).

Definition perform (a : Action) (p : Service) : Service :=
  match a with
  | Do o => step o p
  | RememberTaskForProject pid i => rememberTaskForProject pid i p
  end.

Definition perform_all (acts : list Action) (p : Service) : Service :=
  fold_left (fun q a => perform a q) acts p.


(** A live interval belongs to an active timer. *)
Definition interval_ok (p : Service) : Prop :=
  timerInterval p = true -> isActive (state p) = true.


End PomodoroService.

(** ** Task source (core/todoist-service.js) *)

Module TodoistService.

(** A task as the remote service returns it. *)
Record Task := mkTask { id : string; content : string }.

(** What the settings store keeps for this service. *)
Record Settings := mkSettings {
  s_apiKey : string;
  s_selectedProjectId : option string;
  s_currentTaskIndex : Z
}.

(** The object [getCurrentTask()] builds; a field is [None] when the
    array has no element at the cursor ([undefined]). *)
Record CurrentTask := mkCurrent {
  ct_content : option string;
  ct_id : option string
}.

Inductive Event :=
| TASKS_LOADED (tasks taskIds : list string) (currentTaskIndex : Z)
               (currentTask : option CurrentTask)
| TASK_COMPLETED (taskId : string)
| API_ERROR (message code : string) (status : option Z)
| STORE_CHANGED (area : string).

(** The service object.  [tasks] holds the contents and [taskIds] the
    ids, position by position. *)
Record Service := mkService {
  tasks : list string;
  taskIds : list string;
  selectedProjectId : option string;
  currentTaskIndex : Z;
  apiKey : string;
  stored : Settings;
  published : list Event
}.

Definition publish (e : Event) (s : Service) : Service :=
  mkService (tasks s) (taskIds s) (selectedProjectId s) (currentTaskIndex s)
            (apiKey s) (stored s) (published s ++ [e]).

Definition set_tasks (ts ids : list string) (s : Service) : Service :=
  mkService ts ids (selectedProjectId s) (currentTaskIndex s)
            (apiKey s) (stored s) (published s).

Definition set_currentTaskIndex (i : Z) (s : Service) : Service :=
  mkService (tasks s) (taskIds s) (selectedProjectId s) i
            (apiKey s) (stored s) (published s).

(** [a[i]] on an array: [undefined] outside [0 .. length-1]. *)
Definition js_index {A} (a : list A) (i : Z) : option A :=
  if i <? 0 then None else a !! Z.to_nat i.

(** [a.indexOf(x)]: the first position holding [x], or [-1]. *)
Fixpoint indexOf_from (a : list string) (x : string) (i : Z) : Z :=
  match a with
  | [] => -1
  | y :: a' => if String.eqb y x then i else indexOf_from a' x (i + 1)
  end.

Definition indexOf (a : list string) (x : string) : Z := indexOf_from a x 0.

(** [a.splice(i, 1)] for [i >= 0]. *)
Definition splice1 {A} (i : Z) (a : list A) : list A :=
  delete (Z.to_nat i) a.

Definition len {A} (a : list A) : Z := Z.of_nat (length a).

(** [x || null] on a string or [null]: the empty string is falsy. *)
Definition str_or_null (x : option string) : option string :=
  match x with
  | Some s => if String.eqb s "" then None else Some s
  | None => None
  end.

(** [constructor()] with [_loadSettings()]; [x || 0] keeps [x] unless
    it is [0]. *)
Definition constructor (cfg : Settings) : Service :=
  mkService [] [] (str_or_null (s_selectedProjectId cfg))
            (if s_currentTaskIndex cfg =? 0 then 0 else s_currentTaskIndex cfg)
            (s_apiKey cfg) cfg [].

(** [_saveSettings()] *)
Definition _saveSettings (s : Service) : Service :=
  publish (STORE_CHANGED "todoist")
    (mkService (tasks s) (taskIds s) (selectedProjectId s)
       (currentTaskIndex s) (apiKey s)
       (mkSettings (apiKey s) (selectedProjectId s) (currentTaskIndex s))
       (published s)).

(** [getCurrentTask()] *)
Definition getCurrentTask (s : Service) : option CurrentTask :=
  if len (tasks s) =? 0 then None
  else Some (mkCurrent (js_index (tasks s) (currentTaskIndex s))
                       (js_index (taskIds s) (currentTaskIndex s))).

Definition publish_tasks_loaded (s : Service) : Service :=
  publish (TASKS_LOADED (tasks s) (taskIds s) (currentTaskIndex s)
             (getCurrentTask s)) s.

Definition publish_no_tasks (s : Service) : Service :=
  publish (TASKS_LOADED [] [] 0 None) s.

(** [nextTask()]; [%] is the truncating remainder. *)
Definition nextTask (s : Service) : Service :=
  if len (tasks s) =? 0 then s
  else
    let s1 :=
      set_currentTaskIndex
        (Z.rem (currentTaskIndex s + 1) (len (tasks s))) s in
    let s2 := _saveSettings s1 in
    publish_tasks_loaded s2.

(** [setCurrentTaskIndex(index)] *)
Definition setCurrentTaskIndex (index : Z) (s : Service) : Service :=
  if (index <? 0) || (index >=? len (tasks s)) then s
  else
    let s1 := set_currentTaskIndex index s in
    let s2 := _saveSettings s1 in
    publish_tasks_loaded s2.

Definition hasApiKey (s : Service) : bool :=
  negb (String.eqb (apiKey s) "").

(** [clearApiKey()] (the project mirror is not part of this model). *)
Definition clearApiKey (s : Service) : Service :=
  let s1 := mkService [] [] None 0 "" (stored s) (published s) in
  let s2 := _saveSettings s1 in
  publish_no_tasks s2.

(** How a task request ends: the response arrives with a status code
    and a body, which is [None] when it does not parse into a list of
    tasks (the [try] block throws), or the request itself fails. *)
Inductive FetchOutcome :=
| FetchEnd (statusCode : Z) (body : option (list Task))
| FetchError.

(** The [res.on('end', ...)] and [req.on('error', ...)] callbacks of
    [fetchTasks]. *)
Definition fetchTasks_done (r : FetchOutcome) (s : Service) : Service :=
  match r with
  | FetchEnd statusCode body =>
      if statusCode =? 200 then
        match body with
        | Some fetchedTasks =>
            let s1 := set_tasks (map content fetchedTasks)
                                (map id fetchedTasks) s in
            let s2 :=
              if currentTaskIndex s1 >=? len (tasks s1)
              then set_currentTaskIndex 0 s1 else s1 in
            let s3 := publish_tasks_loaded s2 in
            _saveSettings s3
        | None =>
            let s1 := set_tasks [] [] s in
            let s2 :=
              publish (API_ERROR "Failed to parse tasks response"
                         "PARSE_ERROR" None) s1 in
            publish_no_tasks s2
        end
      else
        let s1 := set_tasks [] [] s in
        let s2 :=
          publish (API_ERROR "Failed to fetch tasks" "API_ERROR"
                     (Some statusCode)) s1 in
        publish_no_tasks s2
  | FetchError =>
      let s1 := set_tasks [] [] s in
      let s2 :=
        publish (API_ERROR "Network error fetching tasks"
                   "NETWORK_ERROR" None) s1 in
      publish_no_tasks s2
  end.

(** [fetchTasks()], with the way the request ends as a parameter. *)
Definition fetchTasks (r : FetchOutcome) (s : Service) : Service :=
  if negb (hasApiKey s)
  then publish (API_ERROR "API key missing" "NO_API_KEY" None) s
  else fetchTasks_done r s.

Inductive CompleteOutcome :=
| CompleteResponse (statusCode : Z)
| CompleteError.

(** The response and error callbacks of [completeTask(taskId)]. *)
Definition completeTask_done (taskId : string) (r : CompleteOutcome)
    (s : Service) : Service :=
  match r with
  | CompleteResponse statusCode =>
      if statusCode =? 204 then
        let index := indexOf (taskIds s) taskId in
        if index >? -1 then
          let s1 := set_tasks (splice1 index (tasks s))
                              (splice1 index (taskIds s)) s in
          let s2 :=
            if currentTaskIndex s1 >=? len (tasks s1)
            then set_currentTaskIndex 0 s1 else s1 in
          let s3 := publish (TASK_COMPLETED taskId) s2 in
          let s4 := publish_tasks_loaded s3 in
          _saveSettings s4
        else s
      else
        publish (API_ERROR "Failed to complete task" "API_ERROR"
                   (Some statusCode)) s
  | CompleteError =>
      publish (API_ERROR "Network error completing task"
                 "NETWORK_ERROR" None) s
  end.

(** [completeTask(taskId)]; an empty id is falsy. *)
Definition completeTask (taskId : string) (r : CompleteOutcome)
    (s : Service) : Service :=
  if negb (hasApiKey s)
  then publish (API_ERROR "API key missing" "NO_API_KEY" None) s
  else if String.eqb taskId "" then s
  else completeTask_done taskId r s.

(** Calls and completions, in the order they take effect.  A request
    started earlier may complete after other calls, so the completion
    callbacks are steps of their own. *)
Inductive Op :=
| NextTask
| SetCurrentTaskIndex (index : Z)
| ClearApiKey
| FetchTasks (r : FetchOutcome)
| FetchTasksDone (r : FetchOutcome)
| CompleteTask (taskId : string) (r : CompleteOutcome)
| CompleteTaskDone (taskId : string) (r : CompleteOutcome).

Definition step (o : Op) (s : Service) : Service :=
  match o with
  | NextTask => nextTask s
  | SetCurrentTaskIndex i => setCurrentTaskIndex i s
  | ClearApiKey => clearApiKey s
  | FetchTasks r => fetchTasks r s
  | FetchTasksDone r => fetchTasks_done r s
  | CompleteTask t r => completeTask t r s
  | CompleteTaskDone t r => completeTask_done t r s
  end.

Definition run (ops : list Op) (s : Service) : Service :=
  fold_left (fun q o => step o q) ops s.

(** The cursor is inside the list whenever there is a list to be
    inside of, and the two arrays stay aligned. *)
Definition cursor_ok (s : Service) : Prop :=
  length (taskIds s) = length (tasks s) /\
  (tasks s <> [] -> 0 <= currentTaskIndex s < len (tasks s)).

(** What the operations preserve: the cursor is never negative, and it
    is a position of the list whenever the list has one. *)
Definition cursor_inv (s : Service) : Prop :=
  0 <= currentTaskIndex s /\ cursor_ok s.

Definition is_task_event (e : Event) : bool :=
  match e with
  | TASKS_LOADED _ _ _ _ | TASK_COMPLETED _ => true
  | _ => false
  end.

(** The events published since an earlier moment of the same service. *)
Definition published_since (before after : Service) : list Event :=
  drop (length (published before)) (published after).

(** *** What the operations keep *)


(** A task request that did not end with status 200 and a body that
    parses. *)
Definition fetch_failed (r : FetchOutcome) : bool :=
  match r with
  | FetchEnd statusCode (Some _) => negb (statusCode =? 200)
  | FetchEnd _ None => true
  | FetchError => true
  end.

(** A completion request that did not end with status 204. *)
Definition complete_failed (r : CompleteOutcome) : bool :=
  match r with
  | CompleteResponse statusCode => negb (statusCode =? 204)
  | CompleteError => true
  end.

Definition is_api_error (e : Event) : bool :=
  match e with API_ERROR _ _ _ => true | _ => false end.

End TodoistService.

(** ** Task source with the project mirror
    ([setApiKey], [selectProject], [fetchProjects], [addTask])

    The service of [TodoistService] together with its [projects] array
    and one log of everything it publishes, the project events
    included.  Operations of the task part run on the [core] service;
    what they publish is appended to the common log in order. *)

Module TodoistProjects.
Import TodoistService.

Record Project := mkProject { project_id : string; project_name : string }.

Inductive BusEvent :=
| Core (e : Event)
| PROJECTS_LOADED (projects : list Project)
| TASK_ADDED (content : string) (projectId : option string)
| PROJECT_SELECTED (projectId : option string).

Record Client := mkClient {
  core : Service;
  projects : list Project;
  bus : list BusEvent
}.

(** Run an operation of the task part and log what it published. *)
Definition with_core (f : Service -> Service) (x : Client) : Client :=
  mkClient (f (core x)) (projects x)
           (bus x ++ map Core (published_since (core x) (f (core x)))).

Definition announce (e : BusEvent) (x : Client) : Client :=
  mkClient (core x) (projects x) (bus x ++ [e]).

Definition set_projects (ps : list Project) (x : Client) : Client :=
  mkClient (core x) ps (bus x).

Definition set_apiKey (k : string) (s : Service) : Service :=
  mkService (tasks s) (taskIds s) (selectedProjectId s) (currentTaskIndex s)
            k (stored s) (published s).

Definition set_selectedProjectId (pid : option string) (s : Service)
  : Service :=
  mkService (tasks s) (taskIds s) pid (currentTaskIndex s)
            (apiKey s) (stored s) (published s).

Definition api_error (message code : string) (status : option Z)
    (x : Client) : Client :=
  with_core (publish (API_ERROR message code status)) x.

(** How a projects request ends; the body is [None] when the [try]
    block throws on it. *)
Inductive ProjectsOutcome :=
| ProjectsEnd (statusCode : Z) (body : option (list Project))
| ProjectsError.

(** The callbacks of [fetchProjects]; on success the task list is
    fetched next, [rt] being how that request ends. *)
Definition fetchProjects_done (rp : ProjectsOutcome) (rt : FetchOutcome)
    (x : Client) : Client :=
  match rp with
  | ProjectsEnd statusCode body =>
      if statusCode =? 200 then
        match body with
        | Some ps =>
            let x1 := set_projects ps x in
            let x2 := announce (PROJECTS_LOADED (projects x1)) x1 in
            with_core (fetchTasks rt) x2
        | None =>
            api_error "Failed to parse projects response" "PARSE_ERROR" None
              (set_projects [] x)
        end
      else
        api_error "Failed to fetch projects" "API_ERROR" (Some statusCode)
          (set_projects [] x)
  | ProjectsError =>
      api_error "Network error fetching projects" "NETWORK_ERROR" None
        (set_projects [] x)
  end.

(** [fetchProjects()] *)
Definition fetchProjects (rp : ProjectsOutcome) (rt : FetchOutcome)
    (x : Client) : Client :=
  if negb (hasApiKey (core x))
  then api_error "API key missing" "NO_API_KEY" None x
  else fetchProjects_done rp rt x.

(** [setApiKey(apiKey)] *)
Definition setApiKey (k : string) (rp : ProjectsOutcome) (rt : FetchOutcome)
    (x : Client) : Client :=
  let x1 := with_core (fun s => _saveSettings (set_apiKey k s)) x in
  fetchProjects rp rt x1.

(** [clearApiKey()], the project mirror included. *)
Definition clearApiKey (x : Client) : Client :=
  let x1 := with_core TodoistService.clearApiKey (set_projects [] x) in
  announce (PROJECTS_LOADED []) x1.

(** [selectProject(projectId)] *)
Definition selectProject (pid : option string) (rt : FetchOutcome)
    (x : Client) : Client :=
  let x1 := with_core (fun s => _saveSettings (set_selectedProjectId pid s)) x in
  let x2 := announce (PROJECT_SELECTED (selectedProjectId (core x1))) x1 in
  with_core (fetchTasks rt) x2.

Inductive AddOutcome :=
| AddEnd (statusCode : Z)
| AddError.

(** The callbacks of [addTask]. *)
Definition addTask_done (content : string) (projectId : option string)
    (ra : AddOutcome) (rt : FetchOutcome) (x : Client) : Client :=
  match ra with
  | AddEnd statusCode =>
      if statusCode =? 200 then
        let x1 := announce (TASK_ADDED content projectId) x in
        with_core (fetchTasks rt) x1
      else
        api_error "Failed to add task" "API_ERROR" (Some statusCode) x
  | AddError =>
      api_error "Network error adding task" "NETWORK_ERROR" None x
  end.

(** [addTask(content, projectId)]; an empty content is falsy. *)
Definition addTask (content : string) (projectId : option string)
    (ra : AddOutcome) (rt : FetchOutcome) (x : Client) : Client :=
  if negb (hasApiKey (core x))
  then api_error "API key missing" "NO_API_KEY" None x
  else if String.eqb content "" then x
  else addTask_done content projectId ra rt x.

(** [constructor()] *)
Definition constructor (cfg : Settings) : Client :=
  mkClient (TodoistService.constructor cfg) [] [].

(** Every call of the service. *)
Inductive Request :=
| Task (o : Op)
| SetApiKey (k : string) (rp : ProjectsOutcome) (rt : FetchOutcome)
| SelectProject (pid : option string) (rt : FetchOutcome)
| FetchProjects (rp : ProjectsOutcome) (rt : FetchOutcome)
| FetchProjectsDone (rp : ProjectsOutcome) (rt : FetchOutcome)
| AddTask (content : string) (projectId : option string)
          (ra : AddOutcome) (rt : FetchOutcome)
| AddTaskDone (content : string) (projectId : option string)
              (ra : AddOutcome) (rt : FetchOutcome).

Definition serve (r : Request) (x : Client) : Client :=
  match r with
  | Task ClearApiKey => clearApiKey x
  | Task o => with_core (step o) x
  | SetApiKey k rp rt => setApiKey k rp rt x
  | SelectProject pid rt => selectProject pid rt x
  | FetchProjects rp rt => fetchProjects rp rt x
  | FetchProjectsDone rp rt => fetchProjects_done rp rt x
  | AddTask c pid ra rt => addTask c pid ra rt x
  | AddTaskDone c pid ra rt => addTask_done c pid ra rt x
  end.

Definition serve_all (rs : list Request) (x : Client) : Client :=
  fold_left (fun y r => serve r y) rs x.


(** A projects request that did not deliver a list. *)
Definition projects_failed (rp : ProjectsOutcome) : bool :=
  match rp with
  | ProjectsEnd statusCode (Some _) => negb (statusCode =? 200)
  | ProjectsEnd _ None => true
  | ProjectsError => true
  end.

Definition is_core_error (e : BusEvent) : bool :=
  match e with Core (API_ERROR _ _ _) => true | _ => false end.

Definition bus_since (before after : Client) : list BusEvent :=
  drop (length (bus before)) (bus after).

End TodoistProjects.

(** ** Event bus (core/event-bus.js)

    [EventBus] extends Node's [EventEmitter] and adds nothing to its
    delivery: [publish] is [emit], [subscribe] is [on] and returns a
    closure doing [off], [subscribeOnce] is [once].  The emitter is
    modelled as Node documents it: listeners of one event name are kept
    in registration order; [emit] calls a snapshot of them one after the
    other, synchronously; an exception thrown by a listener is not caught
    by the emitter. *)

Module EventBus.
Section Bus.

(** What is published with an event, and whatever the subscribers'
  callbacks read and write. *)
Variables Payload World : Type.

Inductive Completion := Normal | Throws.

(** A callback: the identity of the function object and what calling
  it does. *)
Record Callback := mkCallback {
fn : nat;
body : Payload -> World -> Completion * World
}.

Record Listener := mkListener { callback : Callback; once : bool }.

(** The bus: the listener arrays by event name, the subscribers' world,
  and the calls made so far (event name and function identity). *)
Record Bus := mkBus {
listeners : gmap string (list Listener);
world : World;
calls : list (string * nat)
}.

Definition listeners_of (eventName : string) (b : Bus) : list Listener :=
default [] (listeners b !! eventName).

Definition set_listeners (eventName : string) (ls : list Listener)
  (b : Bus) : Bus :=
mkBus (match ls with
       | [] => delete eventName (listeners b)
       | _ => <[eventName := ls]> (listeners b)
       end) (world b) (calls b).

(** [removeListener]: drops the most recently added listener with this
  callback. *)
Fixpoint remove_first (f : nat) (ls : list Listener) : list Listener :=
match ls with
| [] => []
| l :: ls' =>
    if Nat.eqb (fn (callback l)) f then ls' else l :: remove_first f ls'
end.

Definition remove_last (f : nat) (ls : list Listener) : list Listener :=
rev (remove_first f (rev ls)).

Definition off (eventName : string) (cb : Callback) (b : Bus) : Bus :=
set_listeners eventName (remove_last (fn cb) (listeners_of eventName b)) b.

(** [subscribe(eventName, callback)]; the closure it returns is
  [unsubscribe]. *)
Definition subscribe (eventName : string) (cb : Callback) (b : Bus) : Bus :=
set_listeners eventName
  (listeners_of eventName b ++ [mkListener cb false]) b.

Definition unsubscribe (eventName : string) (cb : Callback) (b : Bus)
: Bus := off eventName cb b.

(** [subscribeOnce(eventName, callback)] *)
Definition subscribeOnce (eventName : string) (cb : Callback) (b : Bus)
: Bus :=
set_listeners eventName
  (listeners_of eventName b ++ [mkListener cb true]) b.

(** Calling one listener: a once-listener is removed before its
  callback runs. *)
Definition call_listener (eventName : string) (data : Payload)
  (l : Listener) (b : Bus) : Completion * Bus :=
let b1 := if once l then off eventName (callback l) b else b in
let '(c, w) := body (callback l) data (world b1) in
(c, mkBus (listeners b1) w
          (calls b1 ++ [(eventName, fn (callback l))])).

(** The loop of [emit] over the snapshot: it stops at the first
  listener that throws. *)
Fixpoint call_all (eventName : string) (data : Payload)
  (snapshot : list Listener) (b : Bus) : Completion * Bus :=
match snapshot with
| [] => (Normal, b)
| l :: rest =>
    match call_listener eventName data l b with
    | (Normal, b1) => call_all eventName data rest b1
    | (Throws, b1) => (Throws, b1)
    end
end.

(** [emit(eventName, data)]; an ['error'] event nobody listens to is
  thrown. *)
Definition emit (eventName : string) (data : Payload) (b : Bus)
: Completion * Bus :=
match listeners_of eventName b with
| [] => if String.eqb eventName "error" then (Throws, b) else (Normal, b)
| snapshot => call_all eventName data snapshot b
end.

(** [publish(eventName, data)] *)
Definition publish (eventName : string) (data : Payload) (b : Bus)
: Completion * Bus :=
emit eventName data b.

(** The callbacks invoked by a call, given the bus before and after. *)
Definition invoked_since (before after : Bus) : list (string * nat) :=
drop (length (calls before)) (calls after).

Definition returns_normally (data : Payload) (l : Listener) : Prop :=
forall w, fst (body (callback l) data w) = Normal.

Definition always_throws (data : Payload) (l : Listener) : Prop :=
forall w, fst (body (callback l) data w) = Throws.

(** The function identities of a run of listeners, and the listeners
    that stay subscribed after they were called. *)
Definition fns (ls : list Listener) : list nat :=
  map (fun l => fn (callback l)) ls.

Definition persistent (ls : list Listener) : list Listener :=
  List.filter (fun l => negb (once l)) ls.

(** The call-log entries for a run of listeners. *)
Definition calls_of (eventName : string) (ls : list Listener)
: list (string * nat) :=
map (fun l => (eventName, fn (callback l))) ls.

End Bus.

Arguments mkCallback {_ _}.
Arguments mkListener {_ _}.
Arguments mkBus {_ _}.
Arguments fn {_ _}.
Arguments body {_ _}.
Arguments callback {_ _}.
Arguments once {_ _}.
Arguments listeners {_ _}.
Arguments world {_ _}.
Arguments calls {_ _}.
Arguments listeners_of {_ _}.
Arguments call_listener {_ _}.
Arguments returns_normally {_ _}.
Arguments always_throws {_ _}.
Arguments calls_of {_ _}.
Arguments fns {_ _}.
Arguments persistent {_ _}.
Arguments off {_ _}.
Arguments set_listeners {_ _}.
Arguments remove_first {_ _}.
Arguments remove_last {_ _}.
Arguments subscribe {_ _}.
Arguments subscribeOnce {_ _}.
Arguments unsubscribe {_ _}.
Arguments call_all {_ _}.
Arguments emit {_ _}.
Arguments publish {_ _}.
Arguments invoked_since {_ _}.

(** Sample subscribers: a bus with the given callbacks subscribed to
    ["tasks"], in order; the world counts the callbacks that ran to
    their end. *)
Definition counting (f : nat) : Callback unit nat :=
  mkCallback f (fun _ w => (Normal, S w)).

Definition failing (f : nat) : Callback unit nat :=
  mkCallback f (fun _ w => (Throws, w)).

Definition bus_with (cbs : list (Callback unit nat)) : Bus unit nat :=
  fold_left (fun b cb => subscribe "tasks" cb b) cbs (mkBus ∅ 0%nat []).

End EventBus.

(** ** Theme registry and coordinator (the [ThemeManager] class)

    Theme modules are foreign code.  A module is known by the methods it
    exposes; what a call into it does to the manager is whether it
    completes or throws, which an oracle decides from the calls and
    messages made so far.  Methods that return promises are awaited by
    the manager where the source awaits them, so "throws" covers a
    rejected promise there.  Calls are taken one at a time: a call runs
    to completion before the next one starts. *)

Module ThemeManager.

(** Settings values. *)
Inductive JSValue :=
| JNum (n : Z)
| JStr (s : string)
| JBool (b : bool)
| JNull.

Abbreviation SettingsObject := (gmap string JSValue).

(** A theme's main module: an object with an identity and a set of
    function-valued properties. *)
Record ThemeModule := mkModule { mod_id : nat; methods : list string }.

(** [typeof module[method] === 'function'] *)
Definition has_method (m : ThemeModule) (method : string) : bool :=
  existsb (String.eqb method) (methods m).

(** The [mainModule] property of a configuration object: absent or
    falsy, something that is not an object (a class, a string), or an
    object. *)
Inductive ModuleField :=
| NoModule
| NotAnObject
| AnObject (m : ThemeModule).

(** The object handed to [registerTheme]. *)
Record ThemeConfig := mkConfig {
  c_name : option string;
  c_displayName : option string;
  c_description : option string;
  c_rendererPath : option string;
  c_mainModule : ModuleField;
  c_settings : option SettingsObject
}.

(** The object stored in the [themes] map. *)
Record ThemeData := mkData {
  name : string;
  displayName : string;
  description : option string;
  rendererPath : option string;
  mainModule : ThemeModule;
  settings : SettingsObject
}.

(** What the manager does to the outside, in order. *)
Inductive Effect :=
| Call (module : nat) (method : string)
| Publish (event : string)
| Send (channel themeName : string) (settings : SettingsObject).

(** Modelled from the spec: the settings store.  The store itself
    (electron-store) is not part of the repository; it is taken as the
    key-value store the spec describes, holding under ['theme'] the
    chosen theme name and, per theme name, the persisted settings
    object, a theme name being one key of that object. *)
Record ThemeStore := mkStore {
  currentTheme : string;
  themeSettings : gmap string SettingsObject
}.

(** The manager: the [themes] map in insertion order, the active theme
    pointer, the settings store, whether a live main window exists, and
    the effects so far. *)
Record Manager := mkManager {
  themes : list (string * ThemeData);
  activeTheme : option ThemeData;
  store : ThemeStore;
  mainWindow : bool;
  trace : list Effect
}.

Definition set_themes (t : list (string * ThemeData)) (s : Manager) :=
  mkManager t (activeTheme s) (store s) (mainWindow s) (trace s).

Definition set_activeTheme (a : option ThemeData) (s : Manager) :=
  mkManager (themes s) a (store s) (mainWindow s) (trace s).

Definition set_store (st : ThemeStore) (s : Manager) :=
  mkManager (themes s) (activeTheme s) st (mainWindow s) (trace s).

Definition add_effect (e : Effect) (s : Manager) :=
  mkManager (themes s) (activeTheme s) (store s) (mainWindow s)
            (trace s ++ [e]).

(** [Map.prototype.get], [has], [set] on the insertion-ordered map. *)
Fixpoint Map_get (k : string) (m : list (string * ThemeData))
  : option ThemeData :=
  match m with
  | [] => None
  | (k', v) :: m' => if String.eqb k' k then Some v else Map_get k m'
  end.

Definition Map_has (k : string) (m : list (string * ThemeData)) : bool :=
  match Map_get k m with Some _ => true | None => false end.

Fixpoint Map_set (k : string) (v : ThemeData) (m : list (string * ThemeData))
  : list (string * ThemeData) :=
  match m with
  | [] => [(k, v)]
  | (k', v') :: m' =>
      if String.eqb k' k then (k, v) :: m' else (k', v') :: Map_set k v m'
  end.

(** How many descriptors the registry holds under a name. *)
Definition descriptors (k : string) (m : list (string * ThemeData)) : nat :=
  length (List.filter (fun e => String.eqb (fst e) k) m).

(** A string is truthy unless it is absent or empty. *)
Definition truthy (x : option string) : bool :=
  match x with
  | Some s => negb (String.eqb s "")
  | None => false
  end.

(** Computations of the manager: they end by returning or by throwing,
    and the manager keeps what was done to it either way. *)
Inductive Completion (A : Type) :=
| Returns (a : A)
| Throws.
Arguments Returns {A} a.
Arguments Throws {A}.

Definition M (A : Type) : Type := Manager -> Completion A * Manager.

#[global] Instance M_ret : MRet M := fun A a s => (Returns a, s).

#[global] Instance M_bind : MBind M := fun A B f m s =>
  match m s with
  | (Returns a, s') => f a s'
  | (Throws, s') => (Throws, s')
  end.

Definition get : M Manager := fun s => (Returns s, s).

Definition modify (f : Manager -> Manager) : M unit :=
  fun s => (Returns tt, f s).

(** [try { body } catch (error) { handler }] *)
Definition try_catch {A} (body handler : M A) : M A := fun s =>
  match body s with
  | (Returns a, s') => (Returns a, s')
  | (Throws, s') => handler s'
  end.

Definition THEME_CHANGED : string := "settings:theme:changed".
Definition SETTINGS_CHANGED : string := "settings:changed".

(** The fixed table of [_forwardEventToTheme]. *)
Definition methodMap (eventName : string) : option string :=
  if String.eqb eventName "todoist:tasks-loaded" then Some "onTasksLoaded"
  else if String.eqb eventName "todoist:current-task" then Some "onCurrentTask"
  else if String.eqb eventName "todoist:task-completed" then Some "onTaskCompleted"
  else if String.eqb eventName "todoist:task-added" then Some "onTaskAdded"
  else if String.eqb eventName "pomodoro:timer-tick" then Some "onPomodoroTick"
  else if String.eqb eventName "pomodoro:timer-completed" then Some "onPomodoroCompleted"
  else if String.eqb eventName "pomodoro:work-started" then Some "onWorkStarted"
  else if String.eqb eventName "pomodoro:break-started" then Some "onBreakStarted"
  else if String.eqb eventName "settings:theme-changed" then Some "onThemeSettingsChanged"
  else None.

(** [getThemeSettings(themeName)]: the compiled defaults overlaid with
    what the store holds under the theme's name.  [∪] on maps prefers
    its left argument, so the stored layer goes left. *)
Definition getThemeSettings (themeName : option string) (s : Manager)
  : SettingsObject :=
  let theme :=
    if truthy themeName
    then Map_get (default "" themeName) (themes s)
    else activeTheme s in
  match theme with
  | None => ∅
  | Some t =>
      let savedSettings :=
        default ∅ (themeSettings (store s) !! name t) in
      savedSettings ∪ settings t
  end.

(** Does a call of [method] on module [m] fail, after the effects
    [tr]: the property is not a function, or the method throws. *)
Definition call_fails (throws : list Effect -> nat -> string -> bool)
    (tr : list Effect) (m : ThemeModule) (method : string) : bool :=
  negb (has_method m method) || throws tr (mod_id m) method.

Section Coordinator.

(** The behaviour of the theme modules. *)
Variable throws : list Effect -> nat -> string -> bool.

(** [m.method(...)] *)
Definition call (m : ThemeModule) (method : string) : M unit := fun s =>
  if has_method m method then
    if throws (trace s) (mod_id m) method
    then (Throws, add_effect (Call (mod_id m) method) s)
    else (Returns tt, add_effect (Call (mod_id m) method) s)
  else (Throws, s).

(** [_forwardEventToTheme(eventName, data)] *)
Definition _forwardEventToTheme (eventName : string) : M unit :=
  s ← get;
  match activeTheme s with
  | None => mret tt
  | Some a =>
      let theme := mainModule a in
      let methodName := default "onEvent" (methodMap eventName) in
      if has_method theme methodName then call theme methodName
      else if has_method theme "onEvent" then call theme "onEvent"
      else mret tt
  end.

(** [eventBus.publish] of a settings event.  Of the bus's subscribers
    the manager's own are delivered to: it listens to
    [THEME_CHANGED] and forwards it to the active theme. *)
Definition publish (event : string) : M unit :=
  modify (add_effect (Publish event));;
  if String.eqb event THEME_CHANGED then
    s ← get;
    match activeTheme s with
    | Some _ => _forwardEventToTheme "settings:theme-changed"
    | None => mret tt
    end
  else mret tt.

(** [settingsService.saveCurrentTheme(themeName)] *)
Definition saveCurrentTheme (themeName : string) : M unit :=
  modify (fun s =>
    set_store (mkStore themeName (themeSettings (store s))) s);;
  publish THEME_CHANGED;;
  publish SETTINGS_CHANGED.

(** [settingsService.saveThemeSpecificSettings(themeName, settings)] *)
Definition saveThemeSpecificSettings (themeName : string)
    (settings : SettingsObject) : M unit :=
  modify (fun s =>
    set_store (mkStore (currentTheme (store s))
                 (<[themeName := settings]> (themeSettings (store s)))) s);;
  publish THEME_CHANGED;;
  publish SETTINGS_CHANGED.

(** [sendToRenderer(channel, data)] *)
Definition sendToRenderer (channel themeName : string)
    (settings : SettingsObject) : M unit :=
  s ← get;
  if mainWindow s then modify (add_effect (Send channel themeName settings))
  else mret tt.

(** [_notifyRendererThemeChanged()] *)
Definition _notifyRendererThemeChanged : M unit :=
  s ← get;
  match activeTheme s with
  | None => mret tt
  | Some a =>
      sendToRenderer "theme:changed" (name a)
        (getThemeSettings (Some (name a)) s)
  end.

(** [_validateThemeConfig(config)] *)
Definition _validateThemeConfig (config : option ThemeConfig) : bool :=
  match config with
  | None => false
  | Some c =>
      if negb (truthy (c_name c)) then false
      else if negb (truthy (c_displayName c)) then false
      else match c_mainModule c with
           | NoModule => false
           | NotAnObject => false
           | AnObject module =>
               if negb (has_method module "initialize") then false
               else if negb (has_method module "activate") then false
               else if negb (has_method module "deactivate") then false
               else true
           end
  end.

(** [registerTheme(themeConfig)] *)
Definition registerTheme (themeConfig : option ThemeConfig) : M bool :=
  if negb (_validateThemeConfig themeConfig) then mret false
  else
    match themeConfig with
    | Some (mkConfig (Some name) (Some displayName) description
              rendererPath (AnObject mainModule) settings) =>
        s ← get;
        if Map_has name (themes s) then mret false
        else
          try_catch
            (let theme := mainModule in
             call theme "initialize";;
             modify (fun s =>
               set_themes
                 (Map_set name
                    (mkData name displayName description rendererPath
                       theme (default ∅ settings))
                    (themes s)) s);;
             mret true)
            (mret false)
    | _ => mret false
    end.

(** [deactivateTheme()] *)
Definition deactivateTheme : M bool :=
  s ← get;
  match activeTheme s with
  | None => mret true
  | Some a =>
      try_catch
        (call (mainModule a) "deactivate";;
         modify (set_activeTheme None);;
         mret true)
        (mret false)
  end.

(** [activateTheme(themeName)] *)
Definition activateTheme (themeName : string) : M bool :=
  s ← get;
  match Map_get themeName (themes s) with
  | None => mret false
  | Some themeData =>
      (match activeTheme s with
       | Some _ => deactivateTheme;; mret tt
       | None => mret tt
       end);;
      try_catch
        (call (mainModule themeData) "activate";;
         modify (set_activeTheme (Some themeData));;
         saveCurrentTheme themeName;;
         _notifyRendererThemeChanged;;
         mret true)
        (mret false)
  end.

(** [updateThemeSettings(themeName, settings)] *)
Definition updateThemeSettings (themeName : option string)
    (settings : SettingsObject) : M bool :=
  s ← get;
  let name_ :=
    if truthy themeName then themeName
    else match activeTheme s with
         | Some a => Some (name a)
         | None => None
         end in
  if negb (truthy name_) || negb (Map_has (default "" name_) (themes s))
  then mret false
  else
    let name_ := default "" name_ in
    try_catch
      (saveThemeSpecificSettings name_ settings;;
       s1 ← get;
       match Map_get name_ (themes s1) with
       | None => (fun s => (Throws, s)) : M unit
       | Some theme =>
           if has_method (mainModule theme) "updateSettings"
           then call (mainModule theme) "updateSettings"
           else mret tt
       end;;
       s2 ← get;
       match activeTheme s2 with
       | Some a =>
           if String.eqb (name a) name_
           then sendToRenderer "theme:settings-updated" name_
                  (getThemeSettings (Some name_) s2)
           else mret tt
       | None => mret tt
       end;;
       mret true)
      (mret false).

(** [loadSavedTheme()] *)
Definition loadSavedTheme : M bool :=
  s ← get;
  let savedTheme :=
    if String.eqb (currentTheme (store s)) "" then "default"
    else currentTheme (store s) in
  if negb (Map_has savedTheme (themes s)) then
    if Map_has "default" (themes s) then activateTheme "default"
    else match themes s with
         | (firstTheme, _) :: _ => activateTheme firstTheme
         | [] => mret false
         end
  else activateTheme savedTheme.

End Coordinator.

(** A manager as the constructor leaves it. *)
Definition constructor (st : ThemeStore) (window : bool) : Manager :=
  mkManager [] None st window [].

(** Sample themes and behaviours: modules with exactly the lifecycle
    methods, modules that never throw, a module that throws in one
    method, and a manager with two registered themes. *)
Definition lifecycle : list string := ["initialize"; "activate"; "deactivate"].

Definition sample_config (n : string) (i : nat) : ThemeConfig :=
  mkConfig (Some n) (Some n) None None (AnObject (mkModule i lifecycle)) None.

Definition sample_data (n : string) (i : nat) : ThemeData :=
  mkData n n None None (mkModule i lifecycle) ∅.

Definition never_throws : list Effect -> nat -> string -> bool :=
  fun _ _ _ => false.

Definition throws_in (i : nat) (method : string)
  : list Effect -> nat -> string -> bool :=
  fun _ m meth => Nat.eqb m i && String.eqb meth method.



Definition sample_patch : SettingsObject :=
  {[ "globalTransparency" := JNum 80 ]}.

Definition two_themes (throws : list Effect -> nat -> string -> bool)
  : Manager :=
  snd (registerTheme throws (Some (sample_config "farming" 2))
         (snd (registerTheme throws (Some (sample_config "default" 1))
                 (constructor (mkStore "default" ∅) true)))).

(** Every descriptor is filed under its own, non-empty name and its
    module has the three lifecycle methods: what [registerTheme]
    establishes for each entry it adds. *)
Definition descriptor_ok (k : string) (d : ThemeData) : Prop :=
  name d = k /\ k <> "" /\
  has_method (mainModule d) "initialize" = true /\
  has_method (mainModule d) "activate" = true /\
  has_method (mainModule d) "deactivate" = true.

Definition registry_ok (m : list (string * ThemeData)) : Prop :=
  Forall (fun e => descriptor_ok (fst e) (snd e)) m.

(** Properties of the manager that a computation preserves, whether
    it returns or throws; properties that adding an effect of a given
    kind cannot break; properties that do not read the store. *)
Definition invariant {A} (I : Manager -> Prop) (m : M A) : Prop :=
  forall s, I s -> I (snd (m s)).

Definition stable (P : Effect -> Prop) (I : Manager -> Prop) : Prop :=
  forall s e, P e -> I s -> I (add_effect e s).

Definition store_blind (I : Manager -> Prop) : Prop :=
  forall s st, I s -> I (set_store st s).

(** An effect that is not a call of a theme's [deactivate]. *)
Definition not_deactivate (e : Effect) : Prop :=
  match e with
  | Call _ method => method <> "deactivate"
  | _ => True
  end.


(** The effects a computation added. *)
Definition effects_since (before after : Manager) : list Effect :=
  drop (length (trace before)) (trace after).

(** The claim's reading of "missing a required field": no name, no
    display name, or no implementation object exposing [initialize],
    [activate] and [deactivate]. *)
Definition missing_required_field (config : option ThemeConfig) : Prop :=
  match config with
  | None => True
  | Some c =>
      truthy (c_name c) = false \/
      truthy (c_displayName c) = false \/
      match c_mainModule c with
      | AnObject m =>
          has_method m "initialize" = false \/
          has_method m "activate" = false \/
          has_method m "deactivate" = false
      | _ => True
      end
  end.

(** *** Lookups, event dispatch and discovery *)

(** What [getAllThemes()] and [getActiveTheme()] hand out. *)
Record ThemeInfo := mkInfo {
  info_name : string;
  info_displayName : string;
  info_description : option string
}.

(** [hasTheme(themeName)], [getTheme(themeName)] *)
Definition hasTheme (themeName : string) (s : Manager) : bool :=
  Map_has themeName (themes s).

Definition getTheme (themeName : string) (s : Manager) : option ThemeData :=
  Map_get themeName (themes s).

(** [getAllThemes()] *)
Definition getAllThemes (s : Manager) : list ThemeInfo :=
  map (fun e => mkInfo (fst e) (displayName (snd e)) (description (snd e)))
      (themes s).

(** [getActiveTheme()] *)
Definition getActiveTheme (s : Manager) : option ThemeInfo :=
  match activeTheme s with
  | Some a => Some (mkInfo (name a) (displayName a) (description a))
  | None => None
  end.

(** [this.activeTheme?.name || null] *)
Definition active_name (s : Manager) : option string :=
  match activeTheme s with
  | Some a => if truthy (Some (name a)) then Some (name a) else None
  | None => None
  end.

(** [a !== b] on names that are strings or [null]. *)
Definition differs (a b : option string) : bool :=
  match a, b with
  | Some x, Some y => negb (String.eqb x y)
  | None, None => false
  | _, _ => true
  end.

(** The events of the services the manager subscribes to; a
    tasks-loaded event says whether it carries a current task. *)
Inductive DomainEvent :=
| TasksLoaded (hasCurrentTask : bool)
| TaskCompleted
| TaskAdded
| TimerTick
| TimerCompleted
| WorkStarted
| BreakStarted
| ThemeChanged.

(** The names under which [_subscribeToEvents] forwards an event. *)
Definition forwarded_names (e : DomainEvent) : list string :=
  match e with
  | TasksLoaded true => ["todoist:tasks-loaded"; "todoist:current-task"]
  | TasksLoaded false => ["todoist:tasks-loaded"]
  | TaskCompleted => ["todoist:task-completed"]
  | TaskAdded => ["todoist:task-added"]
  | TimerTick => ["pomodoro:timer-tick"]
  | TimerCompleted => ["pomodoro:timer-completed"]
  | WorkStarted => ["pomodoro:work-started"]
  | BreakStarted => ["pomodoro:break-started"]
  | ThemeChanged => ["settings:theme-changed"]
  end.

(** [s.endsWith(suffix)] *)
Definition ends_with (suffix s : string) : bool :=
  (String.length suffix <=? String.length s)%nat &&
  String.eqb
    (String.substring (String.length s - String.length suffix)
       (String.length suffix) s)
    suffix.

(** [path.basename(file, '.js')] on a bare file name. *)
Definition basename_js (file : string) : string :=
  if ends_with ".js" file && negb (String.eqb file ".js")
  then String.substring 0 (String.length file - 3) file
  else file.

(** [s.replace(pat, '')]: the first occurrence of [pat] is dropped. *)
Definition remove_first_occurrence (pat s : string) : string :=
  match String.index 0 pat s with
  | Some i =>
      String.substring 0 i s
      +:+ String.substring (i + String.length pat)
            (String.length s - (i + String.length pat)) s
  | None => s
  end.

(** The name [discoverThemes] derives from a file name. *)
Definition theme_name_of (file : string) : string :=
  remove_first_occurrence "-theme" (basename_js file).

(** [file.endsWith('-theme.js') && file !== 'base-theme.js'] *)
Definition is_theme_file (file : string) : bool :=
  ends_with "-theme.js" file && negb (String.eqb file "base-theme.js").

(** What [require] of a theme file gives: it throws, or the module
    exports a class, whose construction throws ([None]) or yields the
    theme object, or it exports something else, which is taken as the
    configuration ([None] when that is not an object). *)
Inductive Export :=
| RequireThrows
| ExportsClass (instance : option ThemeModule)
| ExportsOther (config : option ThemeConfig).

(** The themes directory: absent, unreadable, or a listing of files
    with what loading each one gives. *)
Inductive ThemesDir :=
| DirMissing
| DirUnreadable
| DirListing (files : list (string * Export)).

(** A file that contributes nothing to discovery: not a theme file, or
    one whose loading throws. *)
Definition skipped (f : string * Export) : bool :=
  negb (is_theme_file (fst f)) ||
  match snd f with
  | RequireThrows => true
  | ExportsClass None => true
  | _ => false
  end.

Section Dispatch.

(** The behaviour of the theme modules, and [toUpperCase] on the first
    character of a name. *)
Variable throws : list Effect -> nat -> string -> bool.
Variable toUpperCase : string -> string.

(** [_handleRendererEvent(themeName, eventName, data)] *)
Definition _handleRendererEvent (themeName : option string)
    (eventName : string) : M unit :=
  s ← get;
  if differs themeName (active_name s) then mret tt
  else
    match activeTheme s with
    | Some a =>
        if has_method (mainModule a) "onRendererEvent"
        then call throws (mainModule a) "onRendererEvent"
        else mret tt
    | None => mret tt
    end.

Fixpoint forward_all (names : list string) : M unit :=
  match names with
  | [] => mret tt
  | n :: rest => _forwardEventToTheme throws n;; forward_all rest
  end.

(** The bus callbacks installed by [_subscribeToEvents]. *)
Definition deliver (e : DomainEvent) : M unit :=
  s ← get;
  match activeTheme s with
  | Some _ => forward_all (forwarded_names e)
  | None => mret tt
  end.

(** The configuration [discoverThemes] builds for a module that exports
    a class. *)
Definition class_config (themeName : string) (instance : ThemeModule)
  : ThemeConfig :=
  mkConfig (Some themeName)
    (Some (toUpperCase (String.substring 0 1 themeName)
           +:+ String.substring 1 (String.length themeName - 1) themeName))
    (Some (themeName +:+ " theme"))
    (Some ("./themes/" +:+ themeName +:+ ".js"))
    (AnObject instance) None.

(** The body of the loop of [discoverThemes], for one theme file. *)
Definition load_theme (f : string * Export) : M unit :=
  let themeName := theme_name_of (fst f) in
  match snd f with
  | RequireThrows => fun s => (Throws, s)
  | ExportsClass None => fun s => (Throws, s)
  | ExportsClass (Some instance) =>
      registerTheme throws (Some (class_config themeName instance));;
      mret tt
  | ExportsOther config => registerTheme throws config;; mret tt
  end.

Fixpoint load_each (fs : list (string * Export)) : M unit :=
  match fs with
  | [] => mret tt
  | f :: rest => try_catch (load_theme f) (mret tt);; load_each rest
  end.

(** [discoverThemes()] *)
Definition discoverThemes (dir : ThemesDir) : M unit :=
  try_catch
    (match dir with
     | DirMissing => mret tt
     | DirUnreadable => fun s => (Throws, s)
     | DirListing files =>
         load_each (List.filter (fun f => is_theme_file (fst f)) files)
     end)
    (mret tt).

End Dispatch.

(** The method of a module that gets a forwarded event: the one the
    fixed table names, else the catch-all [onEvent], else none. *)
Definition handler_for (m : ThemeModule) (eventName : string)
  : option string :=
  if has_method m (default "onEvent" (methodMap eventName))
  then Some (default "onEvent" (methodMap eventName))
  else if has_method m "onEvent" then Some "onEvent"
  else None.

(** The calls that forwarding a list of event names to a module
    makes when none of them throws. *)
Definition expected_calls (m : ThemeModule) (names : list string)
  : list Effect :=
  flat_map (fun n => match handler_for m n with
                     | Some method => [Call (mod_id m) method]
                     | None => []
                     end) names.

(** The name [loadSavedTheme] settles on. *)
Definition saved_choice (s : Manager) : option string :=
  let savedTheme :=
    if String.eqb (currentTheme (store s)) "" then "default"
    else currentTheme (store s) in
  if Map_has savedTheme (themes s) then Some savedTheme
  else if Map_has "default" (themes s) then Some "default"
  else match themes s with
       | (firstTheme, _) :: _ => Some firstTheme
       | [] => None
       end.

(** A computation that never throws. *)
Definition always_returns {A} (m : M A) : Prop :=
  forall s, exists r s', m s = (Returns r, s').

(** An effect that is a call into one given module. *)
Definition call_into (m : ThemeModule) (e : Effect) : Prop :=
  exists method, e = Call (mod_id m) method.

(** An effect that is not a message to the renderer. *)
Definition not_send (e : Effect) : Prop :=
  match e with Send _ _ _ => False | _ => True end.

(** The first list is an initial part of the second. *)
Definition extends {A} (l l' : list A) : Prop := exists more, l' = l ++ more.

End ThemeManager.

(** * Properties *)

(** ** Interval timer *)

Module PomodoroFacts.
Import PomodoroService.

Lemma timer_run_cons o ops p : run (o :: ops) p = run ops (step o p).
Proof. reflexivity. Qed.






















(** Out-of-range durations are refused, and a pause stops the ticks. *)
Example setWorkTime_out_of_range cfg :
  setWorkTime 0 (constructor cfg) = constructor cfg /\
  setWorkTime 61 (constructor cfg) = constructor cfg.
Proof. split; reflexivity. Qed.

Example paused_timer_does_not_tick cfg :
  let p := run [SetWorkTime 1; Start; SecondElapses; Pause] (constructor cfg) in
  timeRemaining (state p) = 59 /\
  run [SecondElapses; SecondElapses] p = p.
Proof. split; reflexivity. Qed.

(** C5.  After [reset()], whatever the timer was doing, the countdown
    shows the full work period ([timeRemaining = workTime * 60], the
    work period itself being untouched), the timer is not active and
    not in a break, and no interval is left running. *)
Theorem reset_restores_work_countdown (p : Service) :
  timeRemaining (state (reset p)) = workTime (state (reset p)) * 60 /\
  isActive (state (reset p)) = false /\
  isBreak (state (reset p)) = false /\
  workTime (state (reset p)) = workTime (state p) /\
  timerInterval (reset p) = false.
Proof.
  unfold reset. destruct (timerInterval p) eqn:E; cbn; by rewrite ?E.
Qed.


(** *** Further properties of the timer *)

Lemma perform_all_cons a acts p :
  perform_all (a :: acts) p = perform_all acts (perform a p).
Proof. reflexivity. Qed.

(** [setWorkTime] and [setBreakTime] refuse minutes outside 1..60 and
    then change nothing at all.  An accepted value becomes the duration
    and is persisted; the countdown is reloaded only when the timer is
    idle in the phase concerned, and a running countdown is left alone. *)
Theorem duration_setters (p : Service) (m : Z) :
  ((m < 1 \/ 60 < m) -> setWorkTime m p = p /\ setBreakTime m p = p) /\
  (1 <= m <= 60 ->
   workTime (state (setWorkTime m p)) = m /\
   s_workTime (stored (setWorkTime m p)) = m /\
   breakTime (state (setWorkTime m p)) = breakTime (state p) /\
   isActive (state (setWorkTime m p)) = isActive (state p) /\
   isBreak (state (setWorkTime m p)) = isBreak (state p) /\
   timerInterval (setWorkTime m p) = timerInterval p /\
   timeRemaining (state (setWorkTime m p)) =
     (if negb (isBreak (state p)) && negb (isActive (state p))
      then m * 60 else timeRemaining (state p)) /\
   breakTime (state (setBreakTime m p)) = m /\
   s_breakTime (stored (setBreakTime m p)) = m /\
   workTime (state (setBreakTime m p)) = workTime (state p) /\
   timeRemaining (state (setBreakTime m p)) =
     (if isBreak (state p) && negb (isActive (state p))
      then m * 60 else timeRemaining (state p))).
Proof.
  split.
  - intros Hm. unfold setWorkTime, setBreakTime.
    destruct (Z.ltb_spec m 1); cbn; [done |].
    destruct (Z.gtb_spec m 60); cbn; [done | lia].
  - intros Hm. unfold setWorkTime, setBreakTime.
    destruct (Z.ltb_spec m 1); [lia |].
    destruct (Z.gtb_spec m 60); [lia |]. cbn [orb].
    destruct p as [[a b t w br wp bp mem] ti sv log]; cbn.
    destruct a, b; cbn; repeat split.
Qed.

Lemma duration_setters_witness :
  let p := run [Start; SecondElapses]
             (constructor (mkSettings 25 5 None None ∅)) in
  (1 <= 30 <= 60) /\
  timeRemaining (state (setWorkTime 30 p)) = 1499 /\
  workTime (state (setWorkTime 30 p)) = 30 /\
  setWorkTime 61 p = p.
Proof.
  intros p. assert (H : 1 <= 30 <= 60) by lia.
  split; [exact H |].
  destruct (duration_setters p 30) as [_ Hin].
  destruct (Hin H) as (Hw & _ & _ & _ & _ & _ & Ht & _).
  split; [exact Ht |]. split; [exact Hw |].
  exact (proj1 (proj1 (duration_setters p 61) ltac:(lia))).
Defined.

Lemma saveSettings_state p : state (saveSettings p) = state p.
Proof. reflexivity. Qed.








Lemma start_interval_ok p : interval_ok p -> interval_ok (start p).
Proof.
  unfold start, interval_ok.
  destruct (isActive (state p)) eqn:E; [by rewrite E | reflexivity].
Qed.

Lemma enterNextPhase_interval_ok p :
  interval_ok p -> interval_ok (enterNextPhase p).
Proof.
  intros H. unfold enterNextPhase. apply start_interval_ok.
  destruct p as [[a b t w br wp bp mem] ti sv log].
  destruct b; exact H.
Qed.

Lemma step_interval_ok o p : interval_ok p -> interval_ok (step o p).
Proof.
  intros H. destruct o; cbn [step].
  - by apply start_interval_ok.
  - unfold pause. destruct (negb _); [done |].
    destruct p as [st [|] sv log]; intros Hi; discriminate Hi.
  - unfold reset.
    destruct p as [st [|] sv log]; intros Hi; discriminate Hi.
  - unfold toggle. destruct (isActive (state p)) eqn:Ea;
      [| by apply start_interval_ok].
    unfold pause. rewrite Ea.
    destruct p as [st [|] sv log]; intros Hi; discriminate Hi.
  - unfold setWorkTime. destruct (_ || _); [done |].
    destruct p as [[a b t w br wp bp mem] ti sv log].
    destruct b, a; exact H.
  - unfold setBreakTime. destruct (_ || _); [done |].
    destruct p as [[a b t w br wp bp mem] ti sv log].
    destruct b, a; exact H.
  - exact H.
  - exact H.
  - exact H.
  - by apply enterNextPhase_interval_ok.
  - unfold _handleTimerCompleteWithoutAutoStart.
    destruct p as [st [|] sv log]; intros Hi; discriminate Hi.
  - unfold second_elapses. destruct (timerInterval p) eqn:Ei; [| done].
    unfold _tick. destruct (negb _); [done |].
    match goal with |- context [if ?c then _ else _] => destruct c end.
    + unfold _handleTimerComplete. apply enterNextPhase_interval_ok.
      destruct p as [st [|] sv log]; intros Hi; discriminate Hi.
    + exact H.
Qed.

Lemma perform_interval_ok a p : interval_ok p -> interval_ok (perform a p).
Proof.
  destruct a as [o | [pid |] [i |]]; cbn; try done.
  by apply step_interval_ok.
Qed.

Lemma perform_all_interval_ok acts : forall p,
  interval_ok p -> interval_ok (perform_all acts p).
Proof.
  induction acts as [| a acts IH]; intros p H; [exact H |].
  rewrite perform_all_cons. by apply IH, perform_interval_ok.
Qed.

Lemma no_interval_no_change n : forall q,
  timerInterval q = false -> run (repeat SecondElapses n) q = q.
Proof.
  induction n as [| n IH]; intros q Hq; [reflexivity |].
  cbn [repeat]. rewrite timer_run_cons. cbn [step]. unfold second_elapses.
  rewrite Hq. by apply IH.
Qed.

(** A live interval always belongs to an active timer, so once the
    timer is not active (paused, reset, or never started) elapsing
    seconds change nothing: no countdown, no events. *)
Theorem inactive_timer_stands_still (acts : list Action) (p : Service) :
  interval_ok p ->
  interval_ok (perform_all acts p) /\
  (isActive (state (perform_all acts p)) = false ->
   forall n, run (repeat SecondElapses n) (perform_all acts p)
             = perform_all acts p).
Proof.
  intros H. pose proof (perform_all_interval_ok acts p H) as Hq.
  split; [exact Hq |]. intros Hidle n. apply no_interval_no_change.
  destruct (timerInterval (perform_all acts p)) eqn:E; [| reflexivity].
  specialize (Hq E). congruence.
Qed.

Lemma inactive_timer_stands_still_witness :
  let p := constructor (mkSettings 25 5 None None ∅) in
  let acts := [Do Start; Do SecondElapses; Do SecondElapses; Do Pause] in
  interval_ok p /\
  timeRemaining (state (perform_all acts p)) = 1498 /\
  run (repeat SecondElapses 5) (perform_all acts p) = perform_all acts p.
Proof.
  intros p acts.
  assert (H : interval_ok p) by (intros Hi; discriminate Hi).
  split; [exact H |]. split; [reflexivity |].
  exact (proj2 (inactive_timer_stands_still acts p H) eq_refl 5%nat).
Defined.





(** What the setters persist brings the same configuration back when the
    service is constructed again: the same durations and task memory,
    the same project ids (an empty id comes back as none), and an idle
    timer in the work phase with a full countdown. *)
Theorem restart_restores_configuration (p : Service) :
  workTime (state p) <> 0 -> breakTime (state p) <> 0 ->
  let q := constructor (stored (saveSettings p)) in
  workTime (state q) = workTime (state p) /\
  breakTime (state q) = breakTime (state p) /\
  projectTaskMemory (state q) = projectTaskMemory (state p) /\
  workProjectId (state q) = str_or_null (workProjectId (state p)) /\
  breakProjectId (state q) = str_or_null (breakProjectId (state p)) /\
  isActive (state q) = false /\ isBreak (state q) = false /\
  timeRemaining (state q) = workTime (state p) * 60 /\
  timerInterval q = false.
Proof.
  destruct p as [[a b t w br wp bp mem] ti sv log]; cbn.
  intros Hw Hb. unfold num_or.
  destruct (Z.eqb_spec w 0); [done |].
  destruct (Z.eqb_spec br 0); [done |].
  repeat split.
Qed.

Lemma restart_restores_configuration_witness :
  let p := run [SetWorkTime 50; SetBreakTime 10; Start; SecondElapses]
             (constructor (mkSettings 25 5 None None ∅)) in
  (workTime (state p) <> 0 /\ breakTime (state p) <> 0) /\
  timeRemaining (state p) = 2999 /\
  workTime (state (constructor (stored (saveSettings p)))) = 50 /\
  breakTime (state (constructor (stored (saveSettings p)))) = 10.
Proof.
  intros p.
  assert (H1 : workTime (state p) <> 0) by (vm_compute; discriminate).
  assert (H2 : breakTime (state p) <> 0) by (vm_compute; discriminate).
  split; [by split |]. split; [reflexivity |].
  destruct (restart_restores_configuration p H1 H2) as (Hw & Hb & _).
  split; [exact Hw | exact Hb].
Defined.

End PomodoroFacts.

(** ** Task source *)

Module TodoistFacts.
Import TodoistService.

Lemma tasks_run_cons o ops s : run (o :: ops) s = run ops (step o s).
Proof. reflexivity. Qed.

Lemma len_pos {A} (a : list A) : a <> [] -> 0 < len a.
Proof. destruct a; [done |]. intros _. unfold len. cbn [length]. lia. Qed.

Lemma length_delete_eq {A B} (i : nat) : forall (a : list A) (b : list B),
  length a = length b -> length (delete i a) = length (delete i b).
Proof.
  induction i as [| i IH]; intros [| x a] [| y b] H; cbn in *;
    try discriminate; try reflexivity; [lia |].
  f_equal. apply IH. lia.
Qed.

Lemma cursor_inv_same_lists s s' :
  tasks s' = tasks s -> taskIds s' = taskIds s ->
  currentTaskIndex s' = currentTaskIndex s ->
  cursor_inv s -> cursor_inv s'.
Proof.
  unfold cursor_inv, cursor_ok. intros -> -> ->. tauto.
Qed.

(** Installing aligned arrays and pulling a cursor that is past the
    end back to the first position. *)
Lemma cursor_inv_clamp ts ids s :
  length ids = length ts -> 0 <= currentTaskIndex s ->
  cursor_inv
    (let s1 := set_tasks ts ids s in
     if currentTaskIndex s1 >=? len (tasks s1)
     then set_currentTaskIndex 0 s1 else s1).
Proof.
  intros Hlen Hidx. cbn.
  destruct (Z.geb_spec (currentTaskIndex s) (len ts)) as [Hge | Hlt];
    unfold cursor_inv, cursor_ok; cbn.
  - split; [lia |]. split; [done |]. intros Hne%len_pos. lia.
  - split; [done |]. split; [done |]. lia.
Qed.

Lemma cursor_inv_empty s :
  0 <= currentTaskIndex s -> cursor_inv (set_tasks [] [] s).
Proof. intros H. unfold cursor_inv, cursor_ok; cbn. done. Qed.

Lemma nextTask_inv s : cursor_inv s -> cursor_inv (nextTask s).
Proof.
  intros (Hidx & Hlen & Hin). unfold nextTask.
  destruct (Z.eqb_spec (len (tasks s)) 0) as [| Hne]; [done |].
  assert (0 < len (tasks s)) by (unfold len in *; lia).
  pose proof (Z.rem_bound_pos (currentTaskIndex s + 1) (len (tasks s))
                ltac:(lia) ltac:(lia)).
  unfold cursor_inv, cursor_ok; cbn. split; [lia |]. split; [done |]. lia.
Qed.

Lemma setCurrentTaskIndex_inv i s :
  cursor_inv s -> cursor_inv (setCurrentTaskIndex i s).
Proof.
  intros (Hidx & Hlen & Hin). unfold setCurrentTaskIndex.
  destruct (Z.ltb_spec i 0); cbn; [done |].
  destruct (Z.geb_spec i (len (tasks s))); cbn; [done |].
  unfold cursor_inv, cursor_ok; cbn. split; [done |]. split; [done |]. lia.
Qed.

Lemma fetchTasks_done_inv r s : cursor_inv s -> cursor_inv (fetchTasks_done r s).
Proof.
  intros (Hidx & Hlen & Hin). unfold fetchTasks_done.
  destruct r as [statusCode [fetched |] |].
  - destruct (statusCode =? 200).
    + eapply cursor_inv_same_lists;
        [| | | apply (cursor_inv_clamp (map content fetched) (map id fetched) s)];
        [reflexivity | reflexivity | reflexivity | | done].
      by rewrite !length_map.
    + eapply cursor_inv_same_lists; [| | | by apply cursor_inv_empty]; done.
  - destruct (statusCode =? 200);
      (eapply cursor_inv_same_lists; [| | | by apply cursor_inv_empty]; done).
  - eapply cursor_inv_same_lists; [| | | by apply cursor_inv_empty]; done.
Qed.

Lemma completeTask_done_inv t r s :
  cursor_inv s -> cursor_inv (completeTask_done t r s).
Proof.
  intros (Hidx & Hlen & Hin). unfold completeTask_done.
  destruct r as [statusCode |].
  - destruct (statusCode =? 204).
    + destruct (indexOf (taskIds s) t >? -1); [| done].
      eapply cursor_inv_same_lists;
        [| | | apply (cursor_inv_clamp
                       (splice1 (indexOf (taskIds s) t) (tasks s))
                       (splice1 (indexOf (taskIds s) t) (taskIds s)) s)];
        [reflexivity | reflexivity | reflexivity | | done].
      by apply length_delete_eq.
    + eapply cursor_inv_same_lists; [| | | done]; done.
  - eapply cursor_inv_same_lists; [| | | done]; done.
Qed.

Lemma step_inv o s : cursor_inv s -> cursor_inv (step o s).
Proof.
  intros H. destruct o; cbn [step].
  - by apply nextTask_inv.
  - by apply setCurrentTaskIndex_inv.
  - unfold clearApiKey, cursor_inv, cursor_ok; cbn. done.
  - unfold fetchTasks. destruct (negb (hasApiKey s)).
    + eapply cursor_inv_same_lists; [| | | done]; done.
    + by apply fetchTasks_done_inv.
  - by apply fetchTasks_done_inv.
  - unfold completeTask. destruct (negb (hasApiKey s)).
    + eapply cursor_inv_same_lists; [| | | done]; done.
    + destruct (String.eqb taskId ""); [done |].
      by apply completeTask_done_inv.
  - by apply completeTask_done_inv.
Qed.

Lemma run_inv ops : forall s, cursor_inv s -> cursor_inv (run ops s).
Proof.
  induction ops as [| o ops IH]; intros s H; [done |].
  rewrite tasks_run_cons. by apply IH, step_inv.
Qed.

Lemma indexOf_from_absent (a : list string) (x : string) : forall i,
  x ∉ a -> indexOf_from a x i = -1.
Proof.
  induction a as [| y a IH]; intros i Hx; cbn; [done |].
  apply not_elem_of_cons in Hx as [Hne Hx].
  destruct (String.eqb_spec y x); [congruence | by apply IH].
Qed.

(** The cursor wraps around at the end of the list. *)
Example nextTask_wraps :
  let s := run [FetchTasksDone (FetchEnd 200
                  (Some [mkTask "a" "one"; mkTask "b" "two"]));
                NextTask] (constructor (mkSettings "key" None 0)) in
  currentTaskIndex s = 1 /\ currentTaskIndex (nextTask s) = 0 /\
  getCurrentTask (nextTask s) = Some (mkCurrent (Some "one") (Some "a")).
Proof. repeat split. Qed.

(** A failed fetch empties the list and leaves the cursor where it was;
    the next successful fetch pulls it back into range. *)
Example fetch_failure_then_success :
  let s := run [FetchTasksDone (FetchEnd 200
                  (Some [mkTask "a" "one"; mkTask "b" "two"; mkTask "c" "three"]));
                NextTask; NextTask;
                FetchTasksDone (FetchEnd 500 None)]
               (constructor (mkSettings "key" None 0)) in
  tasks s = [] /\ currentTaskIndex s = 2 /\
  currentTaskIndex
    (fetchTasks_done (FetchEnd 200 (Some [mkTask "a" "one"])) s) = 0.
Proof. repeat split. Qed.



(** C10.  When [completeTask(t)] gets a 204 response but [t] is not
    among the task ids in memory, the service is left exactly as it
    was: the task list, the id list and the cursor are unchanged and
    the call publishes no task-completed and no tasks-loaded event. *)
Theorem complete_unknown_task_changes_nothing (s : Service) (t : string) :
  t ∉ taskIds s ->
  completeTask_done t (CompleteResponse 204) s = s /\
  tasks (completeTask t (CompleteResponse 204) s) = tasks s /\
  taskIds (completeTask t (CompleteResponse 204) s) = taskIds s /\
  currentTaskIndex (completeTask t (CompleteResponse 204) s)
    = currentTaskIndex s /\
  List.filter is_task_event
    (published_since s (completeTask t (CompleteResponse 204) s)) = [].
Proof.
  intros Ht.
  assert (Hdone : completeTask_done t (CompleteResponse 204) s = s).
  { unfold completeTask_done, indexOf. cbn.
    by rewrite (indexOf_from_absent _ _ 0 Ht). }
  split; [exact Hdone |].
  unfold completeTask. destruct (negb (hasApiKey s)).
  - unfold published_since; cbn. by rewrite drop_app_length.
  - assert (Hnil : published_since s s = []) by apply drop_all.
    destruct (String.eqb t ""); rewrite ?Hdone, Hnil; done.
Qed.

Lemma complete_unknown_task_changes_nothing_witness :
  let s := run [FetchTasks (FetchEnd 200
                  (Some [mkTask "a" "Write report"; mkTask "b" "Call Sam"]))]
               (constructor (mkSettings "key" None 1)) in
  ("zz" ∉ taskIds s) /\
  completeTask "zz" (CompleteResponse 204) s = s.
Proof.
  intros s.
  assert (H : "zz" ∉ taskIds s).
  { cbn. intros Hin. apply elem_of_cons in Hin as [Hin | Hin]; [discriminate |].
    apply elem_of_cons in Hin as [Hin | Hin]; [discriminate |].
    by apply elem_of_nil in Hin. }
  split; [exact H |].
  exact (proj1 (complete_unknown_task_changes_nothing s "zz" H)).
Defined.

(** *** Further properties of the task source *)

Lemma published_since_refl s : published_since s s = [].
Proof. apply drop_all. Qed.

Lemma published_since_app s s' (evs : list Event) :
  published s' = published s ++ evs -> published_since s s' = evs.
Proof. intros H. unfold published_since. rewrite H. apply drop_app_length. Qed.

(** [clearApiKey()] empties the lists, resets the cursor, forgets key
    and project and persists that.  From then on [fetchTasks] and
    [completeTask] make no request: whatever the remote service would
    answer, they only publish the NO_API_KEY error. *)
Theorem cleared_key_blocks_requests (s : Service) :
  let s0 := clearApiKey s in
  tasks s0 = [] /\ taskIds s0 = [] /\ currentTaskIndex s0 = 0 /\
  apiKey s0 = "" /\ selectedProjectId s0 = None /\
  stored s0 = mkSettings "" None 0 /\
  (forall r,
     fetchTasks r s0 = publish (API_ERROR "API key missing" "NO_API_KEY" None) s0) /\
  (forall t r,
     completeTask t r s0
       = publish (API_ERROR "API key missing" "NO_API_KEY" None) s0).
Proof. repeat split. Qed.






(** A completion request that fails, by status or on the network,
    changes neither the lists nor the cursor nor the persisted settings
    and publishes exactly one api-error. *)
Theorem failed_completion_changes_nothing (s : Service) (t : string)
    (r : CompleteOutcome) :
  complete_failed r = true ->
  let s' := completeTask_done t r s in
  tasks s' = tasks s /\ taskIds s' = taskIds s /\
  currentTaskIndex s' = currentTaskIndex s /\ stored s' = stored s /\
  exists e, published_since s s' = [e] /\ is_api_error e = true.
Proof.
  intros Hr s'. subst s'. unfold completeTask_done.
  destruct r as [statusCode |]; cbn in Hr.
  - destruct (statusCode =? 204); [discriminate |].
    repeat split. eexists.
    split; [by apply published_since_app | reflexivity].
  - repeat split. eexists.
    split; [by apply published_since_app | reflexivity].
Qed.

Lemma failed_completion_changes_nothing_witness :
  let s := run [FetchTasksDone (FetchEnd 200 (Some [mkTask "a" "one"]))]
               (constructor (mkSettings "key" None 0)) in
  complete_failed (CompleteResponse 404) = true /\
  tasks (completeTask_done "a" (CompleteResponse 404) s) = ["one"].
Proof.
  intros s. assert (H : complete_failed (CompleteResponse 404) = true)
    by reflexivity.
  split; [exact H |].
  exact (proj1 (failed_completion_changes_nothing s "a" _ H)).
Defined.

(** A task request that fails in any way (status other than 200, a body
    that does not parse, a network error) empties both arrays, keeps
    key, project, cursor and persisted settings, and publishes an
    api-error followed by an empty tasks-loaded. *)
Theorem failed_fetch_empties_list (s : Service) (r : FetchOutcome) :
  fetch_failed r = true ->
  let s' := fetchTasks_done r s in
  tasks s' = [] /\ taskIds s' = [] /\
  currentTaskIndex s' = currentTaskIndex s /\
  apiKey s' = apiKey s /\ selectedProjectId s' = selectedProjectId s /\
  stored s' = stored s /\
  exists e, published_since s s' = [e; TASKS_LOADED [] [] 0 None] /\
            is_api_error e = true.
Proof.
  intros Hr s'. subst s'. unfold fetchTasks_done.
  destruct r as [statusCode [body |] |]; cbn in Hr.
  - destruct (statusCode =? 200); [discriminate |].
    repeat split. eexists.
    split; [apply published_since_app; cbn; by rewrite <- app_assoc
           | reflexivity].
  - destruct (statusCode =? 200);
      (repeat split; eexists;
       split; [apply published_since_app; cbn; by rewrite <- app_assoc
              | reflexivity]).
  - repeat split. eexists.
    split; [apply published_since_app; cbn; by rewrite <- app_assoc
           | reflexivity].
Qed.

Lemma failed_fetch_empties_list_witness :
  let s := run [FetchTasksDone (FetchEnd 200
                  (Some [mkTask "a" "one"; mkTask "b" "two"])); NextTask]
               (constructor (mkSettings "key" None 0)) in
  fetch_failed (FetchEnd 503 None) = true /\
  currentTaskIndex s = 1 /\
  tasks (fetchTasks_done (FetchEnd 503 None) s) = [] /\
  currentTaskIndex (fetchTasks_done (FetchEnd 503 None) s) = 1.
Proof.
  intros s. assert (H : fetch_failed (FetchEnd 503 None) = true) by reflexivity.
  split; [exact H |]. split; [reflexivity |].
  destruct (failed_fetch_empties_list s _ H) as (Ht & _ & Hc & _).
  split; [exact Ht | exact Hc].
Defined.

Lemma run_repeat_S o k s :
  run (repeat o (S k)) s = run (repeat o k) (step o s).
Proof. reflexivity. Qed.

Lemma nextTask_steps k : forall s,
  cursor_inv s -> tasks s <> [] ->
  tasks (run (repeat NextTask k) s) = tasks s /\
  taskIds (run (repeat NextTask k) s) = taskIds s /\
  currentTaskIndex (run (repeat NextTask k) s)
    = (currentTaskIndex s + Z.of_nat k) mod len (tasks s).
Proof.
  induction k as [| k IH]; intros s Hinv Hne.
  - destruct Hinv as (Hidx & _ & Hin). specialize (Hin Hne).
    split; [reflexivity |]. split; [reflexivity |].
    cbn [repeat run fold_left Z.of_nat]. rewrite Z.add_0_r.
    symmetry. by apply Z.mod_small.
  - rewrite run_repeat_S. cbn [step].
    pose proof (nextTask_inv s Hinv) as Hinv'.
    pose proof (len_pos _ Hne) as Hpos.
    assert (Hs : tasks (nextTask s) = tasks s /\
                 taskIds (nextTask s) = taskIds s /\
                 currentTaskIndex (nextTask s)
                   = (currentTaskIndex s + 1) mod len (tasks s)).
    { unfold nextTask.
      destruct (Z.eqb_spec (len (tasks s)) 0) as [E | _]; [lia |].
      cbn. repeat split. destruct Hinv as (Hidx & _).
      apply Z.rem_mod_nonneg; lia. }
    destruct Hs as (Ht & Hi & Hc).
    destruct (IH (nextTask s) Hinv' ltac:(by rewrite Ht)) as (E1 & E2 & E3).
    rewrite E1, E2, E3, Ht, Hi, Hc. repeat split.
    rewrite Zplus_mod_idemp_l. f_equal. lia.
Qed.

(** [nextTask()] walks the list cyclically: after [k] calls the cursor
    is [(start + k) mod length], the list itself never changes, and
    after as many calls as there are tasks the cursor is back where it
    started. *)
Theorem nextTask_cycles (s : Service) (k : nat) :
  0 <= currentTaskIndex s -> cursor_ok s -> tasks s <> [] ->
  tasks (run (repeat NextTask k) s) = tasks s /\
  taskIds (run (repeat NextTask k) s) = taskIds s /\
  currentTaskIndex (run (repeat NextTask k) s)
    = (currentTaskIndex s + Z.of_nat k) mod len (tasks s) /\
  currentTaskIndex (run (repeat NextTask (length (tasks s))) s)
    = currentTaskIndex s.
Proof.
  intros Hidx Hok Hne.
  destruct (nextTask_steps k s (conj Hidx Hok) Hne) as (E1 & E2 & E3).
  split; [exact E1 |]. split; [exact E2 |]. split; [exact E3 |].
  destruct (nextTask_steps (length (tasks s)) s (conj Hidx Hok) Hne)
    as (_ & _ & E).
  rewrite E. fold (len (tasks s)).
  pose proof (len_pos _ Hne). destruct Hok as (_ & Hin). specialize (Hin Hne).
  rewrite <- (Z.mul_1_l (len (tasks s))) at 1.
  rewrite Z_mod_plus_full. by apply Z.mod_small.
Qed.

Lemma nextTask_cycles_witness :
  let s := run [FetchTasksDone (FetchEnd 200
                  (Some [mkTask "a" "one"; mkTask "b" "two"; mkTask "c" "three"]));
                NextTask]
               (constructor (mkSettings "key" None 0)) in
  (0 <= currentTaskIndex s /\ cursor_ok s /\ tasks s <> []) /\
  currentTaskIndex s = 1 /\
  currentTaskIndex (run (repeat NextTask 2) s) = 0 /\
  currentTaskIndex (run (repeat NextTask 3) s) = 1.
Proof.
  intros s.
  assert (H0 : 0 <= currentTaskIndex s) by (vm_compute; discriminate).
  assert (H1 : cursor_ok s).
  { split; [reflexivity |]. intros _. vm_compute. split; [discriminate | reflexivity]. }
  assert (H2 : tasks s <> []) by discriminate.
  split; [by repeat split |]. split; [reflexivity |].
  destruct (nextTask_cycles s 2 H0 H1 H2) as (_ & _ & E2 & E3).
  split; [exact E2 | exact E3].
Defined.

(** After any sequence of operations the current task is either absent,
    exactly when the list is empty, or a task of the list with both its
    content and its id present. *)
Theorem current_task_is_defined (s : Service) (ops : list Op) :
  0 <= currentTaskIndex s -> cursor_ok s ->
  match getCurrentTask (run ops s) with
  | None => tasks (run ops s) = []
  | Some ct =>
      tasks (run ops s) <> [] /\
      exists c i,
        ct = mkCurrent (Some c) (Some i) /\
        tasks (run ops s) !! Z.to_nat (currentTaskIndex (run ops s)) = Some c /\
        taskIds (run ops s) !! Z.to_nat (currentTaskIndex (run ops s)) = Some i
  end.
Proof.
  intros Hidx Hok.
  destruct (run_inv ops s (conj Hidx Hok)) as (Hi & Hlen & Hin).
  unfold getCurrentTask.
  destruct (Z.eqb_spec (len (tasks (run ops s))) 0) as [E | E].
  - destruct (tasks (run ops s)); [reflexivity | unfold len in E; cbn in E; lia].
  - assert (Hne : tasks (run ops s) <> []) by (intros Hnil; by rewrite Hnil in E).
    split; [exact Hne |]. specialize (Hin Hne). unfold len in Hin.
    unfold js_index. destruct (Z.ltb_spec (currentTaskIndex (run ops s)) 0); [lia |].
    destruct (lookup_lt_is_Some_2 (tasks (run ops s))
                (Z.to_nat (currentTaskIndex (run ops s))) ltac:(lia)) as [c Hc].
    destruct (lookup_lt_is_Some_2 (taskIds (run ops s))
                (Z.to_nat (currentTaskIndex (run ops s))) ltac:(lia)) as [i Hi'].
    exists c, i. by rewrite Hc, Hi'.
Qed.

Lemma current_task_is_defined_witness :
  let s := constructor (mkSettings "key" None 4) in
  let ops := [FetchTasksDone (FetchEnd 200
                (Some [mkTask "a" "one"; mkTask "b" "two"]));
              NextTask; CompleteTaskDone "a" (CompleteResponse 204)] in
  (0 <= currentTaskIndex s /\ cursor_ok s) /\
  getCurrentTask (run ops s) = Some (mkCurrent (Some "two") (Some "b")) /\
  match getCurrentTask (run ops s) with
  | None => tasks (run ops s) = []
  | Some ct =>
      tasks (run ops s) <> [] /\
      exists c i,
        ct = mkCurrent (Some c) (Some i) /\
        tasks (run ops s) !! Z.to_nat (currentTaskIndex (run ops s)) = Some c /\
        taskIds (run ops s) !! Z.to_nat (currentTaskIndex (run ops s)) = Some i
  end.
Proof.
  intros s ops.
  assert (H0 : 0 <= currentTaskIndex s) by (vm_compute; discriminate).
  assert (H1 : cursor_ok s) by (split; [reflexivity | intros H; by destruct H]).
  split; [by split |]. split; [reflexivity |].
  exact (current_task_is_defined s ops H0 H1).
Defined.







End TodoistFacts.

(** ** Task source with the project mirror *)

Module TodoistProjectsFacts.
Import TodoistService TodoistProjects TodoistFacts.


Lemma bus_since_app x x' (evs : list BusEvent) :
  bus x' = bus x ++ evs -> bus_since x x' = evs.
Proof. intros H. unfold bus_since. rewrite H. apply drop_app_length. Qed.










(** The project mirror is replaced wholesale: with a key present,
    [fetchProjects] leaves exactly the list the remote service delivered,
    and an empty mirror after any failure, in which case the tasks and
    the cursor are untouched and one api-error is published.  Task
    operations other than [clearApiKey], [selectProject] and [addTask]
    never change the mirror. *)
Theorem project_mirror_is_replaced (x : Client) (rp : ProjectsOutcome)
    (rt : FetchOutcome) :
  hasApiKey (core x) = true ->
  projects (fetchProjects rp rt x) =
    match rp with
    | ProjectsEnd statusCode (Some ps) => if statusCode =? 200 then ps else []
    | _ => []
    end /\
  (projects_failed rp = true ->
   tasks (core (fetchProjects rp rt x)) = tasks (core x) /\
   taskIds (core (fetchProjects rp rt x)) = taskIds (core x) /\
   currentTaskIndex (core (fetchProjects rp rt x)) = currentTaskIndex (core x) /\
   exists e, bus_since x (fetchProjects rp rt x) = [e] /\
             is_core_error e = true) /\
  (forall o, o <> ClearApiKey -> projects (serve (Task o) x) = projects x) /\
  (forall pid rt', projects (selectProject pid rt' x) = projects x) /\
  (forall c pid ra rt', projects (addTask c pid ra rt' x) = projects x).
Proof.
  intros Hkey. unfold fetchProjects. rewrite Hkey. cbn [negb].
  split; [| split; [| split; [| split]]].
  - unfold fetchProjects_done.
    destruct rp as [st [ps |] |]; try destruct (st =? 200); reflexivity.
  - intros Hf. unfold fetchProjects_done.
    assert (Herr : forall m c st0,
      bus_since x (api_error m c st0 (set_projects [] x))
        = [Core (API_ERROR m c st0)]).
    { intros m c st0. apply bus_since_app. cbn.
      unfold published_since. cbn. by rewrite drop_app_length. }
    destruct rp as [st [ps |] |]; cbn in Hf; try destruct (st =? 200);
      try discriminate;
      (repeat split; eexists; split; [apply Herr | reflexivity]).
  - intros o Ho. destruct o; cbn; done.
  - reflexivity.
  - intros c pid ra rt'. unfold addTask.
    destruct (negb _); [reflexivity |].
    destruct (String.eqb _ _); [reflexivity |].
    unfold addTask_done. destruct ra as [st |]; try destruct (st =? 200);
      reflexivity.
Qed.

Lemma project_mirror_is_replaced_witness :
  let x := serve_all [SetApiKey "key"
                        (ProjectsEnd 200 (Some [mkProject "p1" "Home"]))
                        (FetchEnd 200 (Some [mkTask "a" "one"]))]
             (constructor (mkSettings "" None 0)) in
  hasApiKey (core x) = true /\
  projects x = [mkProject "p1" "Home"] /\
  projects (fetchProjects (ProjectsEnd 500 None) FetchError x) = [] /\
  tasks (core (fetchProjects (ProjectsEnd 500 None) FetchError x)) = ["one"].
Proof.
  intros x. assert (H : hasApiKey (core x) = true) by reflexivity.
  split; [exact H |]. split; [reflexivity |].
  destruct (project_mirror_is_replaced x (ProjectsEnd 500 None) FetchError H)
    as (Hp & Hf & _).
  split; [exact Hp |]. exact (proj1 (Hf eq_refl)).
Defined.



End TodoistProjectsFacts.

(** ** Event bus *)

Module EventBusFacts.
Import EventBus.

Section Delivery.
Context {Payload World : Type}.
Implicit Types (b : Bus Payload World) (l : Listener Payload World).

Lemma call_listener_calls eventName data l b :
  calls (snd (call_listener eventName data l b)) =
    calls b ++ [(eventName, fn (callback l))].
Proof.
  unfold call_listener.
  destruct (once l); cbn;
    match goal with |- context [body ?c ?d ?w] => destruct (body c d w) end;
    reflexivity.
Qed.

Lemma call_listener_completion eventName data l b :
  exists w, fst (call_listener eventName data l b) =
            fst (body (callback l) data w).
Proof.
  unfold call_listener.
  destruct (once l); cbn;
    match goal with |- context [body ?c ?d ?w] =>
      exists w; destruct (body c d w) end;
    reflexivity.
Qed.

(** The loop runs through listeners that return and ends at the
    first one that throws; the listeners behind it are not called. *)
Lemma call_all_stops eventName data h post : forall pre b,
  Forall (returns_normally data) pre -> always_throws data h ->
  fst (call_all eventName data (pre ++ h :: post) b) = Throws /\
  calls (snd (call_all eventName data (pre ++ h :: post) b)) =
    calls b ++ calls_of eventName (pre ++ [h]).
Proof.
  induction pre as [| l pre IH]; intros b Hpre Hh; cbn [app call_all].
  - pose proof (call_listener_calls eventName data h b) as Hc.
    destruct (call_listener_completion eventName data h b) as (w & Hw).
    rewrite (Hh w) in Hw.
    destruct (call_listener eventName data h b) as [c b1]; cbn in *.
    subst c. by split.
  - apply Forall_cons in Hpre as [Hl Hpre].
    pose proof (call_listener_calls eventName data l b) as Hc.
    destruct (call_listener_completion eventName data l b) as (w & Hw).
    rewrite (Hl w) in Hw.
    destruct (call_listener eventName data l b) as [c b1]; cbn in *.
    subst c. destruct (IH b1 Hpre Hh) as [H1 H2]. split; [exact H1 |].
    rewrite H2, Hc, <- app_assoc. reflexivity.
Qed.

(** C4, as the code has it.  When the subscribers of an event are
    [pre ++ h :: post] in subscription order, those in [pre] return
    and [h] throws, then [publish] calls exactly the subscribers in
    [pre] and then [h], in that order; the exception leaves
    [publish], and the subscribers in [post] are not called. *)
Theorem publish_stops_at_throwing_subscriber
    (b : Bus Payload World) (eventName : string) (data : Payload)
    (pre post : list (Listener Payload World)) (h : Listener Payload World) :
  listeners_of eventName b = pre ++ h :: post ->
  Forall (returns_normally data) pre ->
  always_throws data h ->
  fst (publish eventName data b) = Throws /\
  invoked_since b (snd (publish eventName data b)) =
    calls_of eventName (pre ++ [h]).
Proof.
  intros Hls Hpre Hh. unfold publish, emit. rewrite Hls.
  destruct (pre ++ h :: post) as [| l0 rest] eqn:E.
  - by destruct pre.
  - rewrite <- E.
    destruct (call_all_stops eventName data h post pre b Hpre Hh) as [H1 H2].
    split; [exact H1 |].
    unfold invoked_since. rewrite H2. apply drop_app_length.
Qed.

End Delivery.

(** A once-subscriber is called for the first publish only. *)
Example subscribeOnce_runs_once :
  let b := subscribeOnce "tasks" (counting 1) (bus_with [counting 2]) in
  let b1 := snd (publish "tasks" () b) in
  let b2 := snd (publish "tasks" () b1) in
  invoked_since b b1 = [("tasks", 2%nat); ("tasks", 1%nat)] /\
  invoked_since b1 b2 = [("tasks", 2%nat)] /\
  world b2 = 3%nat.
Proof. vm_compute. repeat split. Qed.

(** C4 fails as stated: with a throwing subscriber registered before
    a well-behaved one, [publish] ends by throwing and the second
    subscriber is never called. *)
Lemma publish_does_not_isolate :
  let b := bus_with [failing 1; counting 2] in
  listeners_of "tasks" b =
    [mkListener (failing 1) false; mkListener (counting 2) false] /\
  fst (publish "tasks" () b) = Throws /\
  invoked_since b (snd (publish "tasks" () b)) = [("tasks", 1%nat)] /\
  (("tasks", 2%nat) ∉ invoked_since b (snd (publish "tasks" () b))) /\
  world (snd (publish "tasks" () b)) = 0%nat.
Proof.
  vm_compute. repeat split.
  intros H. apply elem_of_cons in H as [H | H]; [discriminate |].
  by apply elem_of_nil in H.
Qed.

Lemma publish_stops_at_throwing_subscriber_witness :
  let b := bus_with [counting 1; failing 2; counting 3] in
  (listeners_of "tasks" b =
     [mkListener (counting 1) false] ++
     mkListener (failing 2) false :: [mkListener (counting 3) false] /\
   Forall (returns_normally ()) [mkListener (counting 1) false] /\
   always_throws () (mkListener (failing 2) false)) /\
  fst (publish "tasks" () b) = Throws /\
  invoked_since b (snd (publish "tasks" () b)) =
    [("tasks", 1%nat); ("tasks", 2%nat)].
Proof.
  intros b.
  assert (H1 : listeners_of "tasks" b =
     [mkListener (counting 1) false] ++
     mkListener (failing 2) false :: [mkListener (counting 3) false])
    by (vm_compute; reflexivity).
  assert (H2 : Forall (returns_normally ()) [mkListener (counting 1) false])
    by (repeat constructor).
  assert (H3 : always_throws () (mkListener (failing 2) false))
    by (intros w; reflexivity).
  split; [by repeat split |].
  exact (publish_stops_at_throwing_subscriber b "tasks" () _ _ _ H1 H2 H3).
Defined.

(** *** Further properties of the bus *)

Section Subscriptions.
Context {Payload World : Type}.
Implicit Types (b : Bus Payload World) (l : Listener Payload World).
Implicit Types (ls : list (Listener Payload World)).

Lemma listeners_of_set (e n : string) ls b :
  listeners_of e (set_listeners n ls b) =
    if decide (e = n) then ls else listeners_of e b.
Proof.
  unfold listeners_of, set_listeners.
  destruct ls as [| l0 ls]; cbn; destruct (decide (e = n)) as [-> | Hne].
  - by rewrite lookup_delete_eq.
  - by rewrite lookup_delete_ne.
  - by rewrite lookup_insert_eq.
  - by rewrite lookup_insert_ne.
Qed.

Lemma call_all_normal (eventName : string) (data : Payload) : forall ls b,
  Forall (returns_normally data) ls ->
  fst (call_all eventName data ls b) = Normal /\
  calls (snd (call_all eventName data ls b)) =
    calls b ++ calls_of eventName ls.
Proof.
  induction ls as [| l ls IH]; intros b Hls; cbn [call_all].
  - split; [reflexivity | by rewrite app_nil_r].
  - apply Forall_cons in Hls as [Hl Hls].
    pose proof (call_listener_calls eventName data l b) as Hc.
    destruct (call_listener_completion eventName data l b) as (w & Hw).
    rewrite (Hl w) in Hw.
    destruct (call_listener eventName data l b) as [c b1]; cbn in *.
    subst c. destruct (IH b1 Hls) as [H1 H2]. split; [exact H1 |].
    rewrite H2, Hc, <- app_assoc. reflexivity.
Qed.

(** When every subscriber of an event returns, [publish] returns too
    and has called each of them exactly once, in subscription order.
    (An event without subscribers calls nobody; only ["error"] then
    throws.) *)
Theorem publish_delivers_in_order (b : Bus Payload World)
    (eventName : string) (data : Payload) :
  Forall (returns_normally data) (listeners_of eventName b) ->
  invoked_since b (snd (publish eventName data b)) =
    calls_of eventName (listeners_of eventName b) /\
  (listeners_of eventName b <> [] \/ eventName <> "error" ->
   fst (publish eventName data b) = Normal) /\
  (listeners_of eventName b = [] -> snd (publish eventName data b) = b).
Proof.
  intros Hls. unfold publish, emit.
  destruct (listeners_of eventName b) as [| l0 rest] eqn:E.
  - split; [| split].
    + unfold invoked_since. destruct (String.eqb _ _); cbn; apply drop_all.
    + intros [H | H]; [done |].
      by destruct (String.eqb_spec eventName "error").
    + intros _. by destruct (String.eqb _ _).
  - destruct (call_all_normal eventName data (l0 :: rest) b Hls) as [H1 H2].
    split; [| split].
    + unfold invoked_since. rewrite H2. apply drop_app_length.
    + intros _. exact H1.
    + discriminate.
Qed.

Lemma remove_first_here (f : nat) l : forall pre post,
  fn (callback l) = f -> f ∉ fns pre ->
  remove_first f (pre ++ l :: post) = pre ++ post.
Proof.
  induction pre as [| x pre IH]; intros post Hl Hpre; cbn.
  - rewrite Hl, Nat.eqb_refl. reflexivity.
  - apply not_elem_of_cons in Hpre as [Hx Hpre].
    destruct (Nat.eqb_spec (fn (callback x)) f) as [E | _]; [by rewrite E in Hx |].
    by rewrite IH.
Qed.

Lemma remove_last_here (f : nat) l pre post :
  fn (callback l) = f -> f ∉ fns post ->
  remove_last f (pre ++ l :: post) = pre ++ post.
Proof.
  intros Hl Hpost. unfold remove_last.
  rewrite rev_app_distr. cbn [rev]. rewrite <- app_assoc. cbn [app].
  rewrite remove_first_here; [| exact Hl |].
  - by rewrite rev_app_distr, !rev_involutive.
  - unfold fns. rewrite map_rev. intros Hin. apply Hpost.
    apply list_elem_of_In. apply list_elem_of_In in Hin.
    by apply List.in_rev.
Qed.

(** [subscribe] appends the callback behind the subscribers the event
    already has and touches no other event; calling the returned
    [unsubscribe] right away leaves every event with the subscribers it
    had before. *)
Theorem subscribe_then_unsubscribe (b : Bus Payload World)
    (eventName : string) (cb : Callback Payload World) :
  listeners_of eventName (subscribe eventName cb b) =
    listeners_of eventName b ++ [mkListener cb false] /\
  (forall e, e <> eventName ->
     listeners_of e (subscribe eventName cb b) = listeners_of e b) /\
  (forall e,
     listeners_of e (unsubscribe eventName cb (subscribe eventName cb b))
       = listeners_of e b).
Proof.
  unfold subscribe, unsubscribe, off. split; [| split].
  - rewrite listeners_of_set. by destruct (decide _).
  - intros e Hne. rewrite listeners_of_set. by destruct (decide _).
  - intros e. rewrite !listeners_of_set.
    destruct (decide (e = eventName)) as [-> | Hne]; [| reflexivity].
    destruct (decide (eventName = eventName)); [| done].
    rewrite (remove_last_here (fn cb) (mkListener cb false) _ []);
      [by rewrite app_nil_r | reflexivity |].
    intros H. by apply elem_of_nil in H.
Qed.

Lemma call_listener_listeners (eventName : string) (data : Payload) l b e :
  listeners_of e (snd (call_listener eventName data l b)) =
    if once l
    then listeners_of e (off eventName (callback l) b)
    else listeners_of e b.
Proof.
  unfold call_listener. destruct (once l);
    match goal with |- context [body ?c ?d ?w] => destruct (body c d w) end;
    reflexivity.
Qed.

Lemma call_all_listeners (eventName : string) (data : Payload) :
  forall todo done_ b,
    listeners_of eventName b = done_ ++ todo ->
    NoDup (fns (done_ ++ todo)) ->
    Forall (returns_normally data) todo ->
    listeners_of eventName (snd (call_all eventName data todo b))
      = done_ ++ persistent todo.
Proof.
  induction todo as [| l todo IH]; intros done_ b Hb Hnd Hret;
    cbn [call_all persistent List.filter]; [exact Hb |].
  apply Forall_cons in Hret as [Hl Hret].
  pose proof (call_listener_listeners eventName data l b eventName) as Hls.
  destruct (call_listener_completion eventName data l b) as (w & Hw).
  rewrite (Hl w) in Hw.
  destruct (call_listener eventName data l b) as [c b1]; cbn in Hls, Hw.
  subst c. destruct (once l) eqn:Eo; cbn [negb].
  - apply (IH done_ b1); [| | exact Hret].
    + rewrite Hls. unfold off. rewrite listeners_of_set.
      destruct (decide _); [| done]. rewrite Hb.
      apply remove_last_here; [reflexivity |].
      unfold fns in Hnd. rewrite map_app in Hnd. cbn [map] in Hnd.
      apply NoDup_app in Hnd as (_ & _ & Hnd).
      by apply NoDup_cons in Hnd as [Hnd _].
    + unfold fns in *. rewrite map_app in *. cbn [map] in Hnd.
      apply NoDup_app in Hnd as (H1 & H2 & H3).
      apply NoDup_cons in H3 as [_ H3].
      apply NoDup_app. split; [exact H1 |]. split; [| exact H3].
      intros x Hx Hx'. apply (H2 x Hx). by apply elem_of_cons; right.
  - specialize (IH (done_ ++ [l]) b1). rewrite <- !app_assoc in IH.
    apply IH; [by rewrite Hls | exact Hnd | exact Hret].
Qed.

(** After a publish in which every subscriber returned, the event keeps
    exactly its persistent subscribers, in order: each [subscribeOnce]
    callback has been called this once and is gone.  (Stated for
    subscribers that are distinct functions.) *)
Theorem once_subscribers_leave (b : Bus Payload World)
    (eventName : string) (data : Payload) :
  NoDup (fns (listeners_of eventName b)) ->
  Forall (returns_normally data) (listeners_of eventName b) ->
  listeners_of eventName (snd (publish eventName data b))
    = persistent (listeners_of eventName b) /\
  invoked_since b (snd (publish eventName data b))
    = calls_of eventName (listeners_of eventName b).
Proof.
  intros Hnd Hret. split.
  - unfold publish, emit.
    destruct (listeners_of eventName b) as [| l0 rest] eqn:E.
    + destruct (String.eqb _ _); cbn; exact E.
    + by apply (call_all_listeners eventName data (l0 :: rest) [] b).
  - unfold publish, emit.
    destruct (listeners_of eventName b) as [| l0 rest] eqn:E.
    + unfold invoked_since. destruct (String.eqb _ _); cbn; apply drop_all.
    + destruct (call_all_normal eventName data (l0 :: rest) b Hret) as [_ H2].
      unfold invoked_since. rewrite H2. apply drop_app_length.
Qed.

End Subscriptions.

Lemma publish_delivers_in_order_witness :
  let b := bus_with [counting 1; counting 2; counting 3] in
  Forall (returns_normally ()) (listeners_of "tasks" b) /\
  invoked_since b (snd (publish "tasks" () b))
    = [("tasks", 1%nat); ("tasks", 2%nat); ("tasks", 3%nat)] /\
  world (snd (publish "tasks" () b)) = 3%nat.
Proof.
  intros b.
  assert (H : Forall (returns_normally ()) (listeners_of "tasks" b)).
  { vm_compute. repeat constructor. }
  split; [exact H |].
  split; [exact (proj1 (publish_delivers_in_order b "tasks" () H)) |].
  reflexivity.
Defined.

Lemma subscribe_then_unsubscribe_witness :
  let b := bus_with [counting 1] in
  "timer" <> "tasks" /\
  listeners_of "timer" (subscribe "tasks" (counting 2) b)
    = listeners_of "timer" b /\
  listeners_of "tasks" (subscribe "tasks" (counting 2) b)
    = [mkListener (counting 1) false; mkListener (counting 2) false] /\
  listeners_of "tasks"
    (unsubscribe "tasks" (counting 2) (subscribe "tasks" (counting 2) b))
    = [mkListener (counting 1) false].
Proof.
  intros b.
  assert (H : "timer" <> "tasks") by discriminate.
  destruct (subscribe_then_unsubscribe b "tasks" (counting 2))
    as (H1 & H2 & H3).
  split; [exact H |]. split; [exact (H2 "timer" H) |].
  split; [exact H1 | exact (H3 "tasks")].
Defined.

Lemma once_subscribers_leave_witness :
  let b := subscribeOnce "tasks" (counting 2) (bus_with [counting 1]) in
  (NoDup (fns (listeners_of "tasks" b)) /\
   Forall (returns_normally ()) (listeners_of "tasks" b)) /\
  listeners_of "tasks" (snd (publish "tasks" () b))
    = [mkListener (counting 1) false] /\
  invoked_since b (snd (publish "tasks" () b))
    = [("tasks", 1%nat); ("tasks", 2%nat)].
Proof.
  intros b.
  assert (H1 : NoDup (fns (listeners_of "tasks" b))).
  { vm_compute. apply NoDup_cons. split.
    - intros H. apply elem_of_cons in H as [H | H]; [discriminate |].
      by apply elem_of_nil in H.
    - apply NoDup_cons. split; [intros H; by apply elem_of_nil in H |].
      apply NoDup_nil_2. }
  assert (H2 : Forall (returns_normally ()) (listeners_of "tasks" b)).
  { vm_compute. repeat constructor. }
  split; [by split |].
  exact (once_subscribers_leave b "tasks" () H1 H2).
Defined.

End EventBusFacts.

(** ** Theme registry and coordinator *)

Module ThemeManagerFacts.
Import ThemeManager.

Section Facts.
Variable throws : list Effect -> nat -> string -> bool.

(** *** Rules for invariants *)

Lemma inv_ret {A} I (a : A) : invariant I (mret a : M A).
Proof. intros s H. exact H. Qed.

Lemma inv_bind {A B} I (m : M A) (k : A -> M B) :
  invariant I m -> (forall a, invariant I (k a)) -> invariant I (m ≫= k).
Proof.
  intros Hm Hk s H. specialize (Hm s H).
  unfold mbind, M_bind. destruct (m s) as [[a |] s1]; cbn in *.
  - by apply Hk.
  - exact Hm.
Qed.

Lemma inv_get {B} I (k : Manager -> M B) :
  (forall s, invariant I (k s)) -> invariant I (get ≫= k).
Proof. intros Hk. apply inv_bind; [intros s H; exact H | exact Hk]. Qed.

Lemma inv_modify I f :
  (forall s, I s -> I (f s)) -> invariant I (modify f).
Proof. intros Hf s H. by apply Hf. Qed.

Lemma inv_try_catch {A} I (body handler : M A) :
  invariant I body -> invariant I handler ->
  invariant I (try_catch body handler).
Proof.
  intros Hb Hh s H. specialize (Hb s H). unfold try_catch.
  destruct (body s) as [[a |] s1]; cbn in *; [exact Hb | by apply Hh].
Qed.

Lemma inv_call P I m method :
  stable P I -> P (Call (mod_id m) method) ->
  invariant I (call throws m method).
Proof.
  intros HI HP s H. unfold call.
  destruct (has_method m method); [| exact H].
  destruct (throws _ _ _); cbn; by apply HI.
Qed.

Lemma methodMap_not_deactivate eventName :
  default "onEvent" (methodMap eventName) <> "deactivate".
Proof.
  unfold methodMap.
  repeat match goal with
         | |- context [if ?c then _ else _] => destruct c
         end; cbn; discriminate.
Qed.

Lemma inv_forward I eventName :
  stable not_deactivate I ->
  invariant I (_forwardEventToTheme throws eventName).
Proof.
  intros HI. unfold _forwardEventToTheme. apply inv_get. intros s.
  destruct (activeTheme s) as [a |]; [| apply inv_ret].
  destruct (has_method _ _).
  - eapply inv_call; [exact HI | apply methodMap_not_deactivate].
  - destruct (has_method _ _); [| apply inv_ret].
    eapply inv_call; [exact HI | cbn; discriminate].
Qed.

Lemma inv_publish I event :
  stable not_deactivate I -> invariant I (publish throws event).
Proof.
  intros HI. unfold publish. apply inv_bind.
  - apply inv_modify. intros s. by apply HI.
  - intros _. destruct (String.eqb event THEME_CHANGED); [| apply inv_ret].
    apply inv_get. intros s.
    destruct (activeTheme s); [by apply inv_forward | apply inv_ret].
Qed.

Lemma inv_sendToRenderer I channel themeName settings :
  stable not_deactivate I ->
  invariant I (sendToRenderer channel themeName settings).
Proof.
  intros HI. unfold sendToRenderer. apply inv_get. intros s.
  destruct (mainWindow s); [| apply inv_ret].
  apply inv_modify. intros s'. by apply HI.
Qed.

Lemma inv_notify I :
  stable not_deactivate I -> invariant I _notifyRendererThemeChanged.
Proof.
  intros HI. unfold _notifyRendererThemeChanged. apply inv_get. intros s.
  destruct (activeTheme s); [by apply inv_sendToRenderer | apply inv_ret].
Qed.

Lemma inv_saveCurrentTheme I themeName :
  stable not_deactivate I -> store_blind I ->
  invariant I (saveCurrentTheme throws themeName).
Proof.
  intros HI HS. unfold saveCurrentTheme. apply inv_bind.
  - apply inv_modify. intros s. apply HS.
  - intros _. apply inv_bind; [by apply inv_publish |].
    intros _. by apply inv_publish.
Qed.

(** *** The two lifecycle operations, unfolded *)

Lemma deactivateTheme_eq s :
  deactivateTheme throws s =
    match activeTheme s with
    | None => (Returns true, s)
    | Some a =>
        if has_method (mainModule a) "deactivate" then
          if throws (trace s) (mod_id (mainModule a)) "deactivate"
          then (Returns false,
                add_effect (Call (mod_id (mainModule a)) "deactivate") s)
          else (Returns true,
                set_activeTheme None
                  (add_effect (Call (mod_id (mainModule a)) "deactivate") s))
        else (Returns false, s)
    end.
Proof.
  unfold deactivateTheme, mbind, M_bind, get. cbn.
  destruct (activeTheme s) as [a |]; [| reflexivity].
  unfold try_catch, call, modify, mret, M_ret.
  destruct (has_method _ _); [| reflexivity].
  destruct (throws _ _ _); reflexivity.
Qed.

Lemma activateTheme_eq s n d :
  Map_get n (themes s) = Some d ->
  activateTheme throws n s =
    let s1 := snd (deactivateTheme throws s) in
    if has_method (mainModule d) "activate" then
      if throws (trace s1) (mod_id (mainModule d)) "activate"
      then (Returns false,
            add_effect (Call (mod_id (mainModule d)) "activate") s1)
      else
        match (saveCurrentTheme throws n;;
               _notifyRendererThemeChanged;;
               mret true)
                (set_activeTheme (Some d)
                   (add_effect (Call (mod_id (mainModule d)) "activate") s1))
        with
        | (Returns r, s3) => (Returns r, s3)
        | (Throws, s3) => (Returns false, s3)
        end
    else (Returns false, s1).
Proof.
  intros Hd. unfold activateTheme.
  unfold mbind at 1. unfold M_bind at 1. unfold get at 1. cbn beta iota.
  rewrite Hd.
  unfold mbind at 1. unfold M_bind at 1.
  assert (Hpre :
    (match activeTheme s with
     | Some _ => deactivateTheme throws;; mret ()
     | None => mret ()
     end : M unit) s = (Returns (), snd (deactivateTheme throws s))).
  { destruct (activeTheme s) as [a |] eqn:Ea;
      unfold mbind, M_bind; rewrite deactivateTheme_eq, Ea; [| reflexivity].
    destruct (has_method _ _); [| reflexivity].
    destruct (throws _ _ _); reflexivity. }
  rewrite Hpre. cbn zeta.
  unfold try_catch.
  unfold mbind at 1. unfold M_bind at 1. unfold call at 1.
  destruct (has_method (mainModule d) "activate"); [| reflexivity].
  destruct (throws _ _ _); [reflexivity |].
  unfold mbind at 1. unfold M_bind at 1. unfold modify at 1.
  reflexivity.
Qed.

Lemma deactivateTheme_themes s :
  themes (snd (deactivateTheme throws s)) = themes s.
Proof.
  rewrite deactivateTheme_eq. destruct (activeTheme s); [| reflexivity].
  destruct (has_method _ _); [| reflexivity].
  destruct (throws _ _ _); reflexivity.
Qed.

Lemma Map_get_registry_ok m k d :
  registry_ok m -> Map_get k m = Some d -> descriptor_ok k d.
Proof.
  induction 1 as [| [k' d'] m Hd Hm IH]; cbn; [discriminate |].
  destruct (String.eqb_spec k' k) as [-> |]; [| exact IH].
  intros [= <-]. exact Hd.
Qed.

(** What a successful [activateTheme] has done. *)
Lemma activateTheme_success s n d :
  Map_get n (themes s) = Some d ->
  fst (activateTheme throws n s) = Returns true ->
  activeTheme (snd (activateTheme throws n s)) = Some d /\
  themes (snd (activateTheme throws n s)) = themes s /\
  exists rest,
    trace (snd (activateTheme throws n s)) =
      trace (snd (deactivateTheme throws s)) ++
      Call (mod_id (mainModule d)) "activate" :: rest /\
    Forall not_deactivate rest.
Proof.
  intros Hd. rewrite (activateTheme_eq s n d Hd). cbn zeta.
  destruct (has_method (mainModule d) "activate"); [| discriminate].
  destruct (throws _ _ _); [discriminate |].
  set (s1 := snd (deactivateTheme throws s)).
  set (s2 := set_activeTheme (Some d)
               (add_effect (Call (mod_id (mainModule d)) "activate") s1)).
  set (I := fun x : Manager =>
    activeTheme x = Some d /\ themes x = themes s /\
    exists rest, trace x = trace s1 ++
                   Call (mod_id (mainModule d)) "activate" :: rest /\
                 Forall not_deactivate rest).
  assert (HI : stable not_deactivate I).
  { intros x e He (Ha & Ht & rest & Htr & Hrest).
    split; [exact Ha |]. split; [exact Ht |].
    exists (rest ++ [e]). cbn. rewrite Htr, <- app_assoc. split; [reflexivity |].
    apply Forall_app. split; [exact Hrest | by repeat constructor]. }
  assert (HS : store_blind I) by (intros x st Hx; exact Hx).
  assert (H2 : I s2).
  { split; [reflexivity |]. split; [apply deactivateTheme_themes |].
    exists []. split; [reflexivity | constructor]. }
  assert (Htail : invariant I
            (saveCurrentTheme throws n;; _notifyRendererThemeChanged;;
             mret true)).
  { apply inv_bind; [by apply inv_saveCurrentTheme |]. intros _.
    apply inv_bind; [by apply inv_notify |]. intros _. apply inv_ret. }
  specialize (Htail s2 H2).
  destruct ((saveCurrentTheme throws n;; _notifyRendererThemeChanged;;
             mret true) s2) as [[r |] s3]; cbn in *; intros _; exact Htail.
Qed.

(** C2, as the code has it.  [deactivateTheme()] with no active theme
    returns [true] and changes nothing.  With an active theme it
    calls that theme's [deactivate] (once); when the call completes
    it clears the Active Theme Pointer and returns [true]; when the
    call fails it returns [false] and the pointer still designates
    that theme. *)
Theorem deactivateTheme_outcome (s : Manager) :
  match activeTheme s with
  | None => deactivateTheme throws s = (Returns true, s)
  | Some a =>
      effects_since s (snd (deactivateTheme throws s)) =
        (if has_method (mainModule a) "deactivate"
         then [Call (mod_id (mainModule a)) "deactivate"] else []) /\
      if call_fails throws (trace s) (mainModule a) "deactivate"
      then fst (deactivateTheme throws s) = Returns false /\
           activeTheme (snd (deactivateTheme throws s)) = Some a
      else fst (deactivateTheme throws s) = Returns true /\
           activeTheme (snd (deactivateTheme throws s)) = None
  end.
Proof.
  rewrite deactivateTheme_eq. unfold call_fails, effects_since.
  destruct (activeTheme s) as [a |] eqn:Ea; [| reflexivity].
  destruct (has_method _ _); cbn.
  - destruct (throws _ _ _); cbn; rewrite drop_app_length; by repeat split.
  - rewrite drop_all. by repeat split.
Qed.

(** C3, as the code has it.  When the target theme is registered and
    its activation fails, [activateTheme] returns [false] and the
    Active Theme Pointer is what the deactivation of the previously
    active theme left behind; the target is not installed.  If no
    theme was active before the call, the pointer is as it was. *)
Theorem failed_activation_pointer (s : Manager) (n : string) (d : ThemeData) :
  Map_get n (themes s) = Some d ->
  call_fails throws (trace (snd (deactivateTheme throws s)))
    (mainModule d) "activate" = true ->
  fst (activateTheme throws n s) = Returns false /\
  activeTheme (snd (activateTheme throws n s)) =
    activeTheme (snd (deactivateTheme throws s)) /\
  (activeTheme s = None ->
   activeTheme (snd (activateTheme throws n s)) = activeTheme s).
Proof.
  intros Hd Hfail. rewrite (activateTheme_eq s n d Hd). cbn zeta.
  unfold call_fails in Hfail.
  assert (Hnone : activeTheme s = None ->
                  activeTheme (snd (deactivateTheme throws s)) = activeTheme s).
  { intros Hn. rewrite deactivateTheme_eq, Hn. exact Hn. }
  destruct (has_method (mainModule d) "activate"); cbn in Hfail.
  - rewrite Hfail. cbn. repeat split. exact Hnone.
  - repeat split. exact Hnone.
Qed.


(** *** Registration *)

Lemma validate_false_iff config :
  _validateThemeConfig config = false <-> missing_required_field config.
Proof.
  destruct config as [[n dn desc rp mm st] |]; cbn; [| tauto].
  destruct (truthy n); cbn; [| tauto].
  destruct (truthy dn); cbn; [| tauto].
  destruct mm as [| | m]; cbn; [tauto | tauto |].
  destruct (has_method m "initialize"); cbn; [| tauto].
  destruct (has_method m "activate"); cbn; [| tauto].
  destruct (has_method m "deactivate"); cbn; [| tauto].
  split; [discriminate |]. intros [H | [H | [H | [H | H]]]]; discriminate.
Qed.

Lemma Map_set_fresh k v m :
  Map_get k m = None -> Map_set k v m = m ++ [(k, v)].
Proof.
  induction m as [| [k' v'] m IH]; cbn; [reflexivity |].
  destruct (String.eqb k' k); [discriminate |].
  intros H. by rewrite IH.
Qed.

Lemma descriptors_absent k m : Map_get k m = None -> descriptors k m = 0%nat.
Proof.
  unfold descriptors.
  induction m as [| [k' v'] m IH]; cbn; [reflexivity |].
  destruct (String.eqb k' k); [discriminate | exact IH].
Qed.

Lemma descriptors_snoc k v m :
  descriptors k (m ++ [(k, v)]) = S (descriptors k m).
Proof.
  unfold descriptors. rewrite List.filter_app, length_app. cbn.
  rewrite String.eqb_refl. cbn. lia.
Qed.

Lemma Map_get_snoc k v m :
  Map_get k m = None -> Map_get k (m ++ [(k, v)]) = Some v.
Proof.
  induction m as [| [k' v'] m IH]; cbn.
  - by rewrite String.eqb_refl.
  - destruct (String.eqb k' k); [discriminate | exact IH].
Qed.

(** A configuration that passes validation has its required fields. *)
Lemma validate_true_shape c :
  _validateThemeConfig (Some c) = true ->
  exists n dn m,
    c = mkConfig (Some n) (Some dn) (c_description c) (c_rendererPath c)
          (AnObject m) (c_settings c) /\
    n <> "" /\
    has_method m "initialize" = true /\
    has_method m "activate" = true /\
    has_method m "deactivate" = true.
Proof.
  unfold _validateThemeConfig.
  destruct c as [n dn desc rp mm st]; cbn [c_name c_displayName c_mainModule
    c_description c_rendererPath c_settings].
  destruct (truthy n) eqn:En; cbn [negb]; [| discriminate].
  destruct (truthy dn) eqn:Edn; cbn [negb]; [| discriminate].
  destruct mm as [| | m]; [discriminate | discriminate |].
  destruct (has_method m "initialize") eqn:E1; cbn [negb]; [| discriminate].
  destruct (has_method m "activate") eqn:E2; cbn [negb]; [| discriminate].
  destruct (has_method m "deactivate") eqn:E3; cbn [negb]; [| discriminate].
  intros _. destruct n as [n |]; [| discriminate].
  destruct dn as [dn |]; [| discriminate].
  exists n, dn, m. split; [reflexivity |]. split; [| by repeat split].
  intros ->. discriminate.
Qed.

(** [registerTheme], unfolded for a well-formed configuration. *)
Lemma registerTheme_valid s n dn desc rp m st :
  _validateThemeConfig
    (Some (mkConfig (Some n) (Some dn) desc rp (AnObject m) st)) = true ->
  registerTheme throws
    (Some (mkConfig (Some n) (Some dn) desc rp (AnObject m) st)) s =
    if Map_has n (themes s) then (Returns false, s)
    else if throws (trace s) (mod_id m) "initialize"
    then (Returns false, add_effect (Call (mod_id m) "initialize") s)
    else (Returns true,
          set_themes
            (Map_set n (mkData n dn desc rp m (default ∅ st)) (themes s))
            (add_effect (Call (mod_id m) "initialize") s)).
Proof.
  intros Hv. unfold registerTheme. rewrite Hv. cbn [negb].
  unfold mbind at 1. unfold M_bind at 1. unfold get at 1. cbn beta iota.
  destruct (Map_has n (themes s)); [reflexivity |].
  assert (Hi : has_method m "initialize" = true).
  { destruct (validate_true_shape _ Hv) as (n' & dn' & m' & Hc & _ & Hi & _).
    cbn in Hc. by injection Hc as _ _ ->. }
  unfold try_catch, mbind, M_bind, call. rewrite Hi.
  destruct (throws _ _ _); reflexivity.
Qed.

(** Registration keeps the registry well formed. *)
Lemma registerTheme_registry_ok config s :
  registry_ok (themes s) ->
  registry_ok (themes (snd (registerTheme throws config s))).
Proof.
  intros Hreg.
  destruct (_validateThemeConfig config) eqn:Hv.
  - destruct config as [c |]; [| discriminate].
    destruct (validate_true_shape c Hv) as (n & dn & m & Hc & Hn & H1 & H2 & H3).
    rewrite Hc in Hv |- *. rewrite (registerTheme_valid _ _ _ _ _ _ _ Hv).
    unfold Map_has. destruct (Map_get n (themes s)) eqn:Hget; [exact Hreg |].
    destruct (throws _ _ _); cbn; [exact Hreg |].
    rewrite (Map_set_fresh _ _ _ Hget). apply Forall_app. split; [exact Hreg |].
    repeat constructor; cbn; assumption.
  - unfold registerTheme. rewrite Hv. exact Hreg.
Qed.

(** C7.  [registerTheme] always returns and never throws.  It returns
    [false] and leaves the manager as it was when the configuration
    lacks a required field, and when its name is already registered.
    After a registration that succeeded the registry holds exactly one
    descriptor for the name, and registering that name again returns
    [false] and changes nothing. *)
Theorem registerTheme_rejects (s : Manager) (config : option ThemeConfig) :
  (exists r s', registerTheme throws config s = (Returns r, s')) /\
  (missing_required_field config ->
   registerTheme throws config s = (Returns false, s)) /\
  (forall c n, config = Some c -> c_name c = Some n ->
     Map_has n (themes s) = true ->
     registerTheme throws config s = (Returns false, s)) /\
  (forall c n s1, config = Some c -> c_name c = Some n ->
     registerTheme throws config s = (Returns true, s1) ->
     descriptors n (themes s1) = 1%nat /\
     forall c', c_name c' = Some n ->
       registerTheme throws (Some c') s1 = (Returns false, s1) /\
       descriptors n (themes s1) = 1%nat).
Proof.
  assert (Hinvalid : forall cfg x, _validateThemeConfig cfg = false ->
            registerTheme throws cfg x = (Returns false, x)).
  { intros cfg x Hv. unfold registerTheme. by rewrite Hv. }
  assert (Htaken : forall c n x, c_name c = Some n ->
            Map_has n (themes x) = true ->
            registerTheme throws (Some c) x = (Returns false, x)).
  { intros c n x Hn Hhas.
    destruct (_validateThemeConfig (Some c)) eqn:Hv; [| by apply Hinvalid].
    destruct (validate_true_shape c Hv) as (n' & dn & m & Hc & _).
    rewrite Hc in Hv, Hn |- *. cbn in Hn. injection Hn as ->.
    rewrite (registerTheme_valid _ _ _ _ _ _ _ Hv). by rewrite Hhas. }
  split; [| split; [| split]].
  - destruct (_validateThemeConfig config) eqn:Hv.
    + destruct config as [c |]; [| discriminate].
      destruct (validate_true_shape c Hv) as (n & dn & m & Hc & _).
      rewrite Hc in Hv |- *. rewrite (registerTheme_valid _ _ _ _ _ _ _ Hv).
      destruct (Map_has _ _); [by eauto |].
      destruct (throws _ _ _); by eauto.
    + rewrite (Hinvalid _ _ Hv). by eauto.
  - intros Hmiss. by apply Hinvalid, validate_false_iff.
  - intros c n -> Hn Hhas. by eapply Htaken.
  - intros c n s1 -> Hn Hreg.
    destruct (_validateThemeConfig (Some c)) eqn:Hv;
      [| rewrite (Hinvalid _ _ Hv) in Hreg; discriminate].
    destruct (validate_true_shape c Hv) as (n' & dn & m & Hc & _).
    rewrite Hc in Hv, Hn, Hreg. cbn in Hn. injection Hn as ->.
    rewrite (registerTheme_valid _ _ _ _ _ _ _ Hv) in Hreg.
    unfold Map_has in Hreg.
    destruct (Map_get n (themes s)) eqn:Hget; [discriminate |].
    destruct (throws _ _ _); [discriminate |].
    injection Hreg as <-. cbn [themes set_themes].
    rewrite (Map_set_fresh _ _ _ Hget), descriptors_snoc,
      (descriptors_absent _ _ Hget).
    split; [reflexivity |]. intros c' Hn'. split; [| reflexivity].
    eapply Htaken; [exact Hn' |]. cbn [themes set_themes].
    unfold Map_has. by rewrite (Map_get_snoc _ _ _ Hget).
Qed.

(** *** Theme settings *)

Lemma post_bind {A B} (Q : Manager -> Prop) (m : M A) (k : A -> M B) s :
  Q (snd (m s)) -> (forall a, invariant Q (k a)) -> Q (snd ((m ≫= k) s)).
Proof.
  intros Hm Hk. unfold mbind, M_bind.
  destruct (m s) as [[a |] s1]; cbn in *; [by apply Hk | exact Hm].
Qed.

Lemma post_try_catch {A} (Q : Manager -> Prop) (body handler : M A) s :
  Q (snd (body s)) -> invariant Q handler ->
  Q (snd (try_catch body handler s)).
Proof.
  intros Hb Hh. unfold try_catch.
  destruct (body s) as [[a |] s1]; cbn in *; [exact Hb | by apply Hh].
Qed.



End Facts.

(** *** Examples *)

Ltac registry :=
  repeat first
    [ apply Forall_nil | apply Forall_cons | split | reflexivity
    | discriminate ].

(** With no saved theme registered and no ["default"], the first
    registered theme is loaded. *)
Example loadSavedTheme_falls_back :
  let th := never_throws in
  let s := snd (registerTheme th (Some (sample_config "farming" 2))
                  (constructor (mkStore "minimal" ∅) true)) in
  fst (loadSavedTheme th s) = Returns true /\
  activeTheme (snd (loadSavedTheme th s)) = Some (sample_data "farming" 2) /\
  currentTheme (store (snd (loadSavedTheme th s))) = "farming".
Proof. vm_compute. repeat split. Qed.



(** C2 fails as stated: when the active theme's [deactivate] throws,
    the call reports failure and the pointer is not cleared. *)
Lemma failed_deactivation_keeps_pointer :
  let th := throws_in 1 "deactivate" in
  let s := snd (activateTheme th "default" (two_themes th)) in
  activeTheme s = Some (sample_data "default" 1) /\
  fst (deactivateTheme th s) = Returns false /\
  activeTheme (snd (deactivateTheme th s)) = Some (sample_data "default" 1) /\
  activeTheme (snd (deactivateTheme th s)) <> None.
Proof. vm_compute. repeat split. discriminate. Qed.

(** C3 fails as stated: the previously active theme has been
    deactivated by the time the target's [activate] throws, so the
    pointer ends up null, not as it was before the call. *)
Lemma failed_activation_drops_previous :
  let th := throws_in 2 "activate" in
  let s := snd (activateTheme th "default" (two_themes th)) in
  Map_get "farming" (themes s) = Some (sample_data "farming" 2) /\
  activeTheme s = Some (sample_data "default" 1) /\
  fst (activateTheme th "farming" s) = Returns false /\
  activeTheme (snd (activateTheme th "farming" s)) = None /\
  activeTheme (snd (activateTheme th "farming" s)) <> activeTheme s.
Proof. vm_compute. repeat split. discriminate. Qed.

Lemma failed_activation_pointer_witness :
  let th := throws_in 2 "activate" in
  let s := two_themes th in
  (Map_get "farming" (themes s) = Some (sample_data "farming" 2) /\
   call_fails th (trace (snd (deactivateTheme th s)))
     (mainModule (sample_data "farming" 2)) "activate" = true) /\
  fst (activateTheme th "farming" s) = Returns false /\
  activeTheme (snd (activateTheme th "farming" s)) =
    activeTheme (snd (deactivateTheme th s)) /\
  (activeTheme s = None ->
   activeTheme (snd (activateTheme th "farming" s)) = activeTheme s).
Proof.
  intros th s.
  assert (H1 : Map_get "farming" (themes s) = Some (sample_data "farming" 2))
    by reflexivity.
  assert (H2 : call_fails th (trace (snd (deactivateTheme th s)))
                 (mainModule (sample_data "farming" 2)) "activate" = true)
    by reflexivity.
  split; [by split |].
  exact (failed_activation_pointer th s "farming" _ H1 H2).
Defined.

Lemma registerTheme_rejects_witness :
  let th := never_throws in
  let s := constructor (mkStore "default" ∅) true in
  let c := sample_config "default" 1 in
  let s1 := snd (registerTheme th (Some c) s) in
  (c_name c = Some "default" /\
   registerTheme th (Some c) s = (Returns true, s1) /\
   missing_required_field
     (Some (mkConfig (Some "broken") None None None NoModule None))) /\
  descriptors "default" (themes s1) = 1%nat /\
  registerTheme th (Some (sample_config "default" 7)) s1 = (Returns false, s1) /\
  registerTheme th
    (Some (mkConfig (Some "broken") None None None NoModule None)) s1
    = (Returns false, s1).
Proof.
  intros th s c s1.
  assert (H1 : c_name c = Some "default") by reflexivity.
  assert (H2 : registerTheme th (Some c) s = (Returns true, s1)) by reflexivity.
  assert (H3 : missing_required_field
                 (Some (mkConfig (Some "broken") None None None NoModule None)))
    by (right; left; reflexivity).
  split; [by repeat split |].
  destruct (registerTheme_rejects th s (Some c)) as (_ & _ & _ & Htwice).
  destruct (Htwice c "default" s1 eq_refl H1 H2) as [Hone Hagain].
  split; [exact Hone |].
  split; [exact (proj1 (Hagain (sample_config "default" 7) eq_refl)) |].
  exact (proj1 (proj2 (registerTheme_rejects th s1 _)) H3).
Defined.


(** *** Further properties of the coordinator *)

Section MoreFacts.
Variable throws : list Effect -> nat -> string -> bool.
Variable toUpperCase : string -> string.

Lemma stable_weaken (P Q : Effect -> Prop) I :
  (forall e, P e -> Q e) -> stable Q I -> stable P I.
Proof. intros HPQ HQ s e He. apply HQ. by apply HPQ. Qed.

Lemma inv_get_at {B} I (k : Manager -> M B) :
  (forall s, I s -> I (snd (k s s))) -> invariant I (get ≫= k).
Proof. intros Hk s H. by apply Hk. Qed.

Lemma inv_deactivateTheme I :
  stable (fun _ => True) I ->
  (forall x a, I x -> I (set_activeTheme a x)) ->
  invariant I (deactivateTheme throws).
Proof.
  intros HI Hset. unfold deactivateTheme. apply inv_get. intros s.
  destruct (activeTheme s) as [a |]; [| apply inv_ret].
  apply inv_try_catch; [| apply inv_ret].
  apply inv_bind; [eapply inv_call; [exact HI | exact Logic.I] |].
  intros _. apply inv_bind; [| intros _; apply inv_ret].
  apply inv_modify. intros x. apply Hset.
Qed.

Lemma inv_activateTheme I n :
  stable (fun _ => True) I -> store_blind I ->
  (forall x a, I x -> I (set_activeTheme a x)) ->
  invariant I (activateTheme throws n).
Proof.
  intros HI HS Hset.
  assert (HI' : stable not_deactivate I)
    by (apply (stable_weaken _ (fun _ => True)); [done | exact HI]).
  unfold activateTheme. apply inv_get. intros s.
  destruct (Map_get n (themes s)) as [d |]; [| apply inv_ret].
  apply inv_bind.
  - destruct (activeTheme s); [| apply inv_ret].
    apply inv_bind; [by apply inv_deactivateTheme | intros _; apply inv_ret].
  - intros _. apply inv_try_catch; [| apply inv_ret].
    apply inv_bind; [eapply inv_call; [exact HI | exact Logic.I] |].
    intros _. apply inv_bind; [apply inv_modify; intros x; apply Hset |].
    intros _. apply inv_bind; [by apply inv_saveCurrentTheme |].
    intros _. apply inv_bind; [by apply inv_notify | intros _; apply inv_ret].
Qed.

Lemma inv_updateThemeSettings I themeName p :
  stable (fun _ => True) I -> store_blind I ->
  invariant I (updateThemeSettings throws themeName p).
Proof.
  intros HI HS.
  assert (HI' : stable not_deactivate I)
    by (apply (stable_weaken _ (fun _ => True)); [done | exact HI]).
  unfold updateThemeSettings. apply inv_get. intros s.
  destruct (_ || _); [apply inv_ret |].
  apply inv_try_catch; [| apply inv_ret].
  apply inv_bind.
  - unfold saveThemeSpecificSettings. apply inv_bind.
    + apply inv_modify. intros x. apply HS.
    + intros _. apply inv_bind; [by apply inv_publish |].
      intros _. by apply inv_publish.
  - intros _. apply inv_get. intros s1. apply inv_bind.
    + destruct (Map_get _ _) as [theme |]; [| intros x Hx; exact Hx].
      destruct (has_method _ _); [| apply inv_ret].
      eapply inv_call; [exact HI | exact Logic.I].
    + intros _. apply inv_get. intros s2.
      apply inv_bind; [| intros _; apply inv_ret].
      destruct (activeTheme s2) as [a |]; [| apply inv_ret].
      destruct (String.eqb _ _); [| apply inv_ret].
      by apply inv_sendToRenderer.
Qed.

Lemma inv_loadSavedTheme I :
  stable (fun _ => True) I -> store_blind I ->
  (forall x a, I x -> I (set_activeTheme a x)) ->
  invariant I (loadSavedTheme throws).
Proof.
  intros HI HS Hset. unfold loadSavedTheme. apply inv_get. intros s.
  destruct (negb _); [| by apply inv_activateTheme].
  destruct (Map_has _ _); [by apply inv_activateTheme |].
  destruct (themes s) as [| [k d] rest]; [apply inv_ret |].
  by apply inv_activateTheme.
Qed.

Lemma returns_ret {A} (a : A) : always_returns (mret a : M A).
Proof. intros s. by eexists _, _. Qed.

Lemma returns_try_catch {A} (body handler : M A) :
  always_returns handler -> always_returns (try_catch body handler).
Proof.
  intros Hh s. unfold try_catch.
  destruct (body s) as [[a |] s1]; [by eexists _, _ | apply Hh].
Qed.

Lemma returns_bind {A B} (m : M A) (k : A -> M B) :
  always_returns m -> (forall a, always_returns (k a)) ->
  always_returns (m ≫= k).
Proof.
  intros Hm Hk s. destruct (Hm s) as (a & s1 & E).
  unfold mbind, M_bind. rewrite E. apply Hk.
Qed.

Lemma returns_get {B} (k : Manager -> M B) :
  (forall s, always_returns (k s)) -> always_returns (get ≫= k).
Proof. intros Hk s. apply (Hk s s). Qed.

Lemma returns_deactivateTheme : always_returns (deactivateTheme throws).
Proof.
  unfold deactivateTheme. apply returns_get. intros s.
  destruct (activeTheme s); [| apply returns_ret].
  apply returns_try_catch, returns_ret.
Qed.

Lemma returns_activateTheme n : always_returns (activateTheme throws n).
Proof.
  unfold activateTheme. apply returns_get. intros s.
  destruct (Map_get n (themes s)); [| apply returns_ret].
  apply returns_bind.
  - destruct (activeTheme s); [| apply returns_ret].
    apply returns_bind; [apply returns_deactivateTheme |].
    intros _. apply returns_ret.
  - intros _. apply returns_try_catch, returns_ret.
Qed.

Lemma returns_updateThemeSettings themeName p :
  always_returns (updateThemeSettings throws themeName p).
Proof.
  unfold updateThemeSettings. apply returns_get. intros s.
  destruct (_ || _); [apply returns_ret |].
  apply returns_try_catch, returns_ret.
Qed.

Lemma returns_loadSavedTheme : always_returns (loadSavedTheme throws).
Proof.
  unfold loadSavedTheme. apply returns_get. intros s.
  destruct (negb _); [| apply returns_activateTheme].
  destruct (Map_has _ _); [apply returns_activateTheme |].
  destruct (themes s) as [| [k d] rest];
    [apply returns_ret | apply returns_activateTheme].
Qed.

(** [activateTheme], [deactivateTheme], [updateThemeSettings] and
    [loadSavedTheme] always hand back a boolean: whatever a theme
    module does, no exception leaves them.  None of them ever changes
    the registry. *)
Theorem lifecycle_calls_never_throw (s : Manager) (n : string)
    (themeName : option string) (p : SettingsObject) :
  always_returns (activateTheme throws n) /\
  always_returns (deactivateTheme throws) /\
  always_returns (updateThemeSettings throws themeName p) /\
  always_returns (loadSavedTheme throws) /\
  themes (snd (activateTheme throws n s)) = themes s /\
  themes (snd (deactivateTheme throws s)) = themes s /\
  themes (snd (updateThemeSettings throws themeName p s)) = themes s /\
  themes (snd (loadSavedTheme throws s)) = themes s.
Proof.
  set (I := fun x : Manager => themes x = themes s).
  assert (HI : stable (fun _ => True) I) by (intros x e _ Hx; exact Hx).
  assert (HS : store_blind I) by (intros x st Hx; exact Hx).
  assert (Hset : forall x a, I x -> I (set_activeTheme a x))
    by (intros x a Hx; exact Hx).
  split; [apply returns_activateTheme |].
  split; [apply returns_deactivateTheme |].
  split; [apply returns_updateThemeSettings |].
  split; [apply returns_loadSavedTheme |].
  split; [by apply (inv_activateTheme I n HI HS Hset s) |].
  split; [by apply (inv_deactivateTheme I HI Hset s) |].
  split; [by apply (inv_updateThemeSettings I themeName p HI HS s) |].
  by apply (inv_loadSavedTheme I HI HS Hset s).
Qed.

(** A name that is not registered gets nothing done: [activateTheme]
    and [updateThemeSettings] return [false] and leave the manager as
    it was (the current theme is not deactivated), and its settings
    read as the empty object. *)
Theorem unknown_theme_is_refused (s : Manager) (n : string)
    (p : SettingsObject) :
  n <> "" -> Map_get n (themes s) = None ->
  activateTheme throws n s = (Returns false, s) /\
  updateThemeSettings throws (Some n) p s = (Returns false, s) /\
  getThemeSettings (Some n) s = ∅ /\
  hasTheme n s = false /\ getTheme n s = None.
Proof.
  intros Hn Hget.
  assert (Ht : truthy (Some n) = true).
  { cbn. by destruct (String.eqb_spec n ""). }
  split; [| split; [| split; [| split]]].
  - unfold activateTheme, mbind, M_bind, get. by rewrite Hget.
  - unfold updateThemeSettings, mbind, M_bind, get.
    rewrite Ht. cbn [default]. unfold id. rewrite Ht.
    unfold Map_has. by rewrite Hget.
  - unfold getThemeSettings. rewrite Ht. cbn [default]. unfold id.
    by rewrite Hget.
  - unfold hasTheme, Map_has. by rewrite Hget.
  - exact Hget.
Qed.

Lemma truthy_name n : n <> "" -> truthy (Some n) = true.
Proof. intros Hn. cbn. by destruct (String.eqb_spec n ""). Qed.

(** A successful activation has stored the theme's name. *)
Lemma activateTheme_stores_name s n d :
  Map_get n (themes s) = Some d ->
  fst (activateTheme throws n s) = Returns true ->
  currentTheme (store (snd (activateTheme throws n s))) = n.
Proof.
  intros Hd. rewrite (activateTheme_eq throws s n d Hd). cbn zeta.
  destruct (has_method (mainModule d) "activate"); [| discriminate].
  destruct (throws _ _ _); [discriminate |].
  set (s2 := set_activeTheme _ _).
  set (Q := fun x : Manager => currentTheme (store x) = n).
  assert (HQ : forall P, stable P Q) by (intros P x e _ Hx; exact Hx).
  assert (Htail : Q (snd ((saveCurrentTheme throws n;;
                           _notifyRendererThemeChanged;; mret true) s2))).
  { apply post_bind.
    - unfold saveCurrentTheme. apply post_bind; [reflexivity |].
      intros _. apply inv_bind; [apply inv_publish, HQ |].
      intros _. apply inv_publish, HQ.
    - intros _. apply inv_bind; [apply inv_notify, HQ |].
      intros _. apply inv_ret. }
  destruct ((saveCurrentTheme throws n;; _notifyRendererThemeChanged;;
             mret true) s2) as [[r |] s3]; intros _; exact Htail.
Qed.

(** After a successful [activateTheme(n)] the store names [n] as the
    current theme, and [loadSavedTheme()] from there is the same as
    activating [n] again. *)
Theorem activation_is_remembered (s : Manager) (n : string) (d : ThemeData) :
  registry_ok (themes s) ->
  Map_get n (themes s) = Some d ->
  fst (activateTheme throws n s) = Returns true ->
  currentTheme (store (snd (activateTheme throws n s))) = n /\
  loadSavedTheme throws (snd (activateTheme throws n s))
    = activateTheme throws n (snd (activateTheme throws n s)).
Proof.
  intros Hreg Hd Hok.
  pose proof (activateTheme_stores_name s n d Hd Hok) as Hcur.
  destruct (activateTheme_success throws s n d Hd Hok) as (_ & Hth & _).
  destruct (Map_get_registry_ok _ _ _ Hreg Hd) as (_ & Hn & _).
  split; [exact Hcur |].
  unfold loadSavedTheme. unfold mbind at 1. unfold M_bind at 1.
  unfold get at 1. cbn beta iota. rewrite Hcur.
  destruct (String.eqb_spec n ""); [done |].
  unfold Map_has. by rewrite Hth, Hd.
Qed.

(** *** More on theme settings *)

Lemma inv_forward_gen (P : Effect -> Prop) I eventName :
  (forall m method, P (Call m method)) -> stable P I ->
  invariant I (_forwardEventToTheme throws eventName).
Proof.
  intros HP HI. unfold _forwardEventToTheme. apply inv_get. intros s.
  destruct (activeTheme s) as [a |]; [| apply inv_ret].
  destruct (has_method _ _); [eapply inv_call; [exact HI | apply HP] |].
  destruct (has_method _ _); [| apply inv_ret].
  eapply inv_call; [exact HI | apply HP].
Qed.

Lemma inv_publish_gen (P : Effect -> Prop) I event :
  (forall ev, P (Publish ev)) -> (forall m method, P (Call m method)) ->
  stable P I -> invariant I (publish throws event).
Proof.
  intros HPp HPc HI. unfold publish. apply inv_bind.
  - apply inv_modify. intros s. apply HI, HPp.
  - intros _. destruct (String.eqb event THEME_CHANGED); [| apply inv_ret].
    apply inv_get. intros s.
    destruct (activeTheme s); [by apply (inv_forward_gen P) | apply inv_ret].
Qed.





(** The renderer is told about new settings only for the active theme:
    when the updated theme is not the active one, the update sends
    nothing to the renderer. *)
Theorem inactive_update_is_not_announced (s : Manager) (n : string)
    (d : ThemeData) (p : SettingsObject) :
  n <> "" -> Map_get n (themes s) = Some d ->
  (forall a, activeTheme s = Some a -> name a <> n) ->
  exists evs,
    trace (snd (updateThemeSettings throws (Some n) p s)) = trace s ++ evs /\
    Forall not_send evs.
Proof.
  intros Hn Hget Hinactive.
  set (Q := fun x : Manager =>
    activeTheme x = activeTheme s /\
    exists evs, trace x = trace s ++ evs /\ Forall not_send evs).
  assert (Hst : stable not_send Q).
  { intros x e He (Ha & evs & Htr & Hev). split; [exact Ha |].
    exists (evs ++ [e]). cbn. rewrite Htr, <- app_assoc. split; [reflexivity |].
    apply Forall_app. split; [exact Hev | by repeat constructor]. }
  assert (HQ : Q (snd (updateThemeSettings throws (Some n) p s))).
  { unfold updateThemeSettings.
    unfold mbind at 1. unfold M_bind at 1. unfold get at 1. cbn beta iota.
    rewrite (truthy_name n Hn). cbn [default]. unfold id.
    rewrite (truthy_name n Hn). unfold Map_has. rewrite Hget. cbn [negb orb].
    apply post_try_catch; [| apply inv_ret].
    apply post_bind.
    - unfold saveThemeSpecificSettings. apply post_bind.
      + cbn. split; [reflexivity |]. exists []. split; [by rewrite app_nil_r |].
        constructor.
      + intros _.
        apply inv_bind; [by apply (inv_publish_gen not_send) |].
        intros _. by apply (inv_publish_gen not_send).
    - intros _. apply inv_get. intros s1. apply inv_bind.
      + destruct (Map_get n (themes s1)) as [theme |]; [| intros x Hx; exact Hx].
        destruct (has_method _ _); [| apply inv_ret].
        eapply inv_call; [exact Hst | exact Logic.I].
      + intros _. apply inv_get_at. intros s2 H2.
        apply inv_bind; [| intros _; apply inv_ret | exact H2].
        destruct H2 as (Ha2 & _).
        destruct (activeTheme s2) as [a |] eqn:Ea; [| apply inv_ret].
        rewrite <- Ha2 in Hinactive.
        destruct (String.eqb_spec (name a) n) as [E | _]; [| apply inv_ret].
        by specialize (Hinactive a eq_refl). }
  exact (proj2 HQ).
Qed.

(** *** Registration, dispatch and discovery *)

Lemma Map_get_app_l k d (m m' : list (string * ThemeData)) :
  Map_get k m = Some d -> Map_get k (m ++ m') = Some d.
Proof.
  induction m as [| [k' v'] m IH]; cbn; [discriminate |].
  destruct (String.eqb k' k); [done | exact IH].
Qed.

(** The three ways [registerTheme] can end. *)
Lemma registerTheme_cases config s :
  registerTheme throws config s = (Returns false, s) \/
  (exists m, registerTheme throws config s =
     (Returns false, add_effect (Call (mod_id m) "initialize") s)) \/
  (exists n d,
     Map_get n (themes s) = None /\ descriptor_ok n d /\
     registerTheme throws config s =
       (Returns true,
        set_themes (themes s ++ [(n, d)])
          (add_effect (Call (mod_id (mainModule d)) "initialize") s))).
Proof.
  destruct (_validateThemeConfig config) eqn:Hv.
  - destruct config as [c |]; [| discriminate].
    destruct (validate_true_shape c Hv)
      as (n & dn & m & Hc & Hn & H1 & H2 & H3).
    rewrite Hc in Hv |- *. rewrite (registerTheme_valid throws _ _ _ _ _ _ _ Hv).
    unfold Map_has. destruct (Map_get n (themes s)) eqn:Hget; [by left |].
    destruct (throws _ _ _); [right; left; by exists m |].
    right; right.
    exists n, (mkData n dn (c_description c) (c_rendererPath c) m
                 (default ∅ (c_settings c))).
    split; [exact Hget |].
    split; [by repeat split | by rewrite (Map_set_fresh _ _ _ Hget)].
  - left. unfold registerTheme. by rewrite Hv.
Qed.

(** Registration only ever appends: it never touches the pointer or the
    store, never changes or reorders a descriptor that is already there,
    and calls nothing but the new theme's [initialize], at most once.
    When it returns [false] (invalid configuration, name taken, or
    [initialize] threw) the registry is exactly as before. *)
Theorem registration_only_appends (s : Manager) (config : option ThemeConfig) :
  activeTheme (snd (registerTheme throws config s)) = activeTheme s /\
  store (snd (registerTheme throws config s)) = store s /\
  (fst (registerTheme throws config s) = Returns false ->
   themes (snd (registerTheme throws config s)) = themes s) /\
  (fst (registerTheme throws config s) = Returns true ->
   exists n d,
     themes (snd (registerTheme throws config s)) = themes s ++ [(n, d)] /\
     Map_get n (themes s) = None /\ descriptor_ok n d /\
     effects_since s (snd (registerTheme throws config s))
       = [Call (mod_id (mainModule d)) "initialize"]) /\
  (forall k d, Map_get k (themes s) = Some d ->
     Map_get k (themes (snd (registerTheme throws config s))) = Some d) /\
  (effects_since s (snd (registerTheme throws config s)) = [] \/
   exists m, effects_since s (snd (registerTheme throws config s))
             = [Call m "initialize"]).
Proof.
  assert (Hnil : effects_since s s = []) by apply drop_all.
  assert (Hone : forall e x, trace x = trace s ++ [e] -> effects_since s x = [e]).
  { intros e x Hx. unfold effects_since. rewrite Hx. apply drop_app_length. }
  destruct (registerTheme_cases config s)
    as [-> | [(m & ->) | (n & d & Hget & Hd & ->)]]; cbn [fst snd].
  - repeat split; try done. by left.
  - repeat split; try done. right. exists (mod_id m). by apply Hone.
  - split; [reflexivity |]. split; [reflexivity |]. split; [discriminate |].
    split; [| split].
    + intros _. exists n, d. split; [reflexivity |]. split; [exact Hget |].
      split; [exact Hd |]. by apply Hone.
    + intros k d' Hk. cbn. by apply Map_get_app_l.
    + right. eexists. by apply Hone.
Qed.

(** [_handleRendererEvent] drops an event whose theme name is not the
    active theme's: nothing is called and the manager is unchanged.  An
    event of the active theme goes to that theme's [onRendererEvent] if
    it has one, and to nothing else. *)
Theorem renderer_events_are_filtered (s : Manager)
    (themeName : option string) (eventName : string) :
  (differs themeName (active_name s) = true ->
   _handleRendererEvent throws themeName eventName s = (Returns (), s)) /\
  (activeTheme s = None ->
   _handleRendererEvent throws themeName eventName s = (Returns (), s)) /\
  (forall a, activeTheme s = Some a ->
     differs themeName (active_name s) = false ->
     _handleRendererEvent throws themeName eventName s =
       if has_method (mainModule a) "onRendererEvent"
       then call throws (mainModule a) "onRendererEvent" s
       else (Returns (), s)) /\
  (forall e, e ∈ effects_since s
               (snd (_handleRendererEvent throws themeName eventName s)) ->
     exists a, activeTheme s = Some a /\
               differs themeName (active_name s) = false /\
               e = Call (mod_id (mainModule a)) "onRendererEvent").
Proof.
  unfold _handleRendererEvent, mbind, M_bind, get. cbn beta iota.
  split; [by intros -> |]. split; [| split].
  - intros Hn. rewrite Hn. by destruct (differs _ _).
  - intros a Ha Hd. rewrite Hd, Ha. by destruct (has_method _ _).
  - intros e. destruct (differs themeName (active_name s)) eqn:Hd.
    { cbn. unfold effects_since. rewrite drop_all. intros H.
      by apply elem_of_nil in H. }
    destruct (activeTheme s) as [a |] eqn:Ha.
    2:{ cbn. unfold effects_since. rewrite drop_all. intros H.
        by apply elem_of_nil in H. }
    unfold call. destruct (has_method _ _); cbn.
    2:{ unfold effects_since. rewrite drop_all. intros H.
        by apply elem_of_nil in H. }
    destruct (throws _ _ _); cbn; unfold effects_since; cbn;
      rewrite drop_app_length; intros H;
      apply list_elem_of_singleton in H; subst e; by exists a.
Qed.

Lemma forward_one x a n :
  activeTheme x = Some a ->
  _forwardEventToTheme throws n x =
    match handler_for (mainModule a) n with
    | Some method =>
        if throws (trace x) (mod_id (mainModule a)) method
        then (Throws, add_effect (Call (mod_id (mainModule a)) method) x)
        else (Returns (), add_effect (Call (mod_id (mainModule a)) method) x)
    | None => (Returns (), x)
    end.
Proof.
  intros Ha. unfold _forwardEventToTheme, mbind, M_bind, get, handler_for.
  cbn beta iota zeta. rewrite Ha. cbn beta iota zeta. unfold call.
  destruct (has_method (mainModule a) (default "onEvent" (methodMap n))) eqn:E1.
  - reflexivity.
  - by destruct (has_method (mainModule a) "onEvent").
Qed.

Lemma forward_all_spec a names : forall x,
  activeTheme x = Some a ->
  themes (snd (forward_all throws names x)) = themes x /\
  activeTheme (snd (forward_all throws names x)) = Some a /\
  store (snd (forward_all throws names x)) = store x /\
  exists evs,
    trace (snd (forward_all throws names x)) = trace x ++ evs /\
    extends evs (expected_calls (mainModule a) names) /\
    (fst (forward_all throws names x) = Returns () ->
     evs = expected_calls (mainModule a) names).
Proof.
  induction names as [| n names IH]; intros x Ha.
  - cbn. repeat split; try done. exists []. rewrite app_nil_r.
    repeat split. by exists [].
  - cbn [forward_all expected_calls flat_map]. unfold mbind, M_bind.
    rewrite (forward_one x a n Ha).
    destruct (handler_for (mainModule a) n) as [method |].
    + destruct (throws _ _ _).
      * cbn. repeat split; try done. eexists [_]. split; [reflexivity |].
        split; [by eexists | discriminate].
      * destruct (IH (add_effect (Call (mod_id (mainModule a)) method) x) Ha)
          as (H1 & H2 & H3 & evs & Htr & (more & Hext) & Hfull).
        split; [exact H1 |]. split; [exact H2 |]. split; [exact H3 |].
        exists (Call (mod_id (mainModule a)) method :: evs).
        fold (expected_calls (mainModule a) names).
        split; [rewrite Htr; cbn; by rewrite <- app_assoc |].
        split; [exists more; cbn; by rewrite Hext |].
        intros Hr. cbn. f_equal. by apply Hfull.
    + fold (expected_calls (mainModule a) names).
      destruct (IH x Ha) as (H1 & H2 & H3 & evs & Htr & Hext & Hfull).
      repeat split; try done. exists evs. by repeat split.
Qed.

(** Domain events reach only the active theme.  With no active theme a
    delivered event changes nothing.  With an active theme the manager
    calls that theme's module and no other, through the handler the fixed
    table names or else [onEvent] (and not at all if the theme has
    neither), in the order the event is forwarded, stopping if a handler
    throws; registry, pointer and store stay as they are. *)
Theorem events_reach_only_the_active_theme (s : Manager) (e : DomainEvent) :
  (activeTheme s = None -> deliver throws e s = (Returns (), s)) /\
  (forall a, activeTheme s = Some a ->
     themes (snd (deliver throws e s)) = themes s /\
     activeTheme (snd (deliver throws e s)) = Some a /\
     store (snd (deliver throws e s)) = store s /\
     extends (effects_since s (snd (deliver throws e s)))
       (expected_calls (mainModule a) (forwarded_names e)) /\
     (fst (deliver throws e s) = Returns () ->
      effects_since s (snd (deliver throws e s))
        = expected_calls (mainModule a) (forwarded_names e))).
Proof.
  unfold deliver, mbind, M_bind, get. cbn beta iota. split.
  - by intros ->.
  - intros a Ha. rewrite Ha.
    destruct (forward_all_spec a (forwarded_names e) s Ha)
      as (H1 & H2 & H3 & evs & Htr & Hext & Hfull).
    assert (Hev : effects_since s (snd (forward_all throws (forwarded_names e) s))
                  = evs).
    { unfold effects_since. rewrite Htr. apply drop_app_length. }
    rewrite Hev. by repeat split.
Qed.

(** *** Discovery *)

(** One round of the loop of [discoverThemes]: the file's error, if
    any, is caught, and what is left is what [registerTheme] did. *)
Lemma load_step f s :
  try_catch (load_theme throws toUpperCase f) (mret tt) s = (Returns (), s) \/
  exists config,
    try_catch (load_theme throws toUpperCase f) (mret tt) s
      = (Returns (), snd (registerTheme throws config s)).
Proof.
  assert (Hreg : forall config,
    try_catch (registerTheme throws config;; mret tt) (mret tt) s
      = (Returns (), snd (registerTheme throws config s))).
  { intros config. unfold try_catch, mbind, M_bind.
    destruct (registerTheme_cases config s)
      as [-> | [(m & ->) | (n & d & _ & _ & ->)]]; reflexivity. }
  destruct f as [file [| [instance |] | config]]; unfold load_theme; cbn [fst snd].
  - by left.
  - right. eexists. apply Hreg.
  - by left.
  - right. eexists. apply Hreg.
Qed.

Lemma load_each_cons f fs s :
  load_each throws toUpperCase (f :: fs) s =
    load_each throws toUpperCase fs
      (snd (try_catch (load_theme throws toUpperCase f) (mret tt) s)).
Proof.
  cbn [load_each]. unfold mbind, M_bind.
  by destruct (load_step f s) as [-> | (config & ->)].
Qed.

Lemma load_each_spec fs : forall s,
  fst (load_each throws toUpperCase fs s) = Returns () /\
  activeTheme (snd (load_each throws toUpperCase fs s)) = activeTheme s /\
  store (snd (load_each throws toUpperCase fs s)) = store s /\
  mainWindow (snd (load_each throws toUpperCase fs s)) = mainWindow s /\
  (exists added,
     themes (snd (load_each throws toUpperCase fs s)) = themes s ++ added /\
     registry_ok added /\ (length added <= length fs)%nat) /\
  (exists evs,
     trace (snd (load_each throws toUpperCase fs s)) = trace s ++ evs /\
     Forall (fun e => exists m, e = Call m "initialize") evs /\
     (length evs <= length fs)%nat).
Proof.
  induction fs as [| f fs IH]; intros s.
  - cbn. repeat split; try done.
    + exists []. rewrite app_nil_r. repeat split; [by constructor | cbn; lia].
    + exists []. rewrite app_nil_r. repeat split; [by constructor | cbn; lia].
  - rewrite load_each_cons.
    destruct (IH (snd (try_catch (load_theme throws toUpperCase f) (mret tt) s)))
      as (H0 & H1 & H2 & H3 & (added & H4 & H5 & H6) & (evs & H7 & H8 & H9)).
    destruct (load_step f s) as [E | (config & E)]; rewrite E in *;
      cbn [snd] in *.
    { repeat split; try done.
      - exists added. repeat split; try done. cbn. lia.
      - exists evs. repeat split; try done. cbn. lia. }
    destruct (registerTheme_cases config s)
      as [E' | [(m & E') | (n & d & Hget & Hd & E')]]; rewrite E' in *;
      cbn [snd] in *.
    + repeat split; try done.
      * exists added. repeat split; try done. cbn. lia.
      * exists evs. repeat split; try done. cbn. lia.
    + repeat split; try done.
      * exists added. repeat split; try done. cbn. lia.
      * exists (Call (mod_id m) "initialize" :: evs).
        cbn in H7. rewrite <- app_assoc in H7.
        repeat split; [exact H7 | | cbn; lia].
        constructor; [by eexists | exact H8].
    + repeat split; try done.
      * exists ((n, d) :: added). cbn in H4. rewrite <- app_assoc in H4.
        repeat split; [exact H4 | | cbn; lia].
        constructor; [exact Hd | exact H5].
      * exists (Call (mod_id (mainModule d)) "initialize" :: evs).
        cbn in H7. rewrite <- app_assoc in H7.
        repeat split; [exact H7 | | cbn; lia].
        constructor; [by eexists | exact H8].
Qed.

(** [discoverThemes()] never throws and only ever appends: it leaves
    the pointer, the store and every registered descriptor as they are,
    adds at most one well-formed descriptor per theme file, behind the
    existing ones, and calls nothing but [initialize], at most once per
    theme file.  A missing or unreadable themes directory changes
    nothing at all. *)
Theorem discovery_only_appends (dir : ThemesDir) (s : Manager) :
  fst (discoverThemes throws toUpperCase dir s) = Returns () /\
  activeTheme (snd (discoverThemes throws toUpperCase dir s)) = activeTheme s /\
  store (snd (discoverThemes throws toUpperCase dir s)) = store s /\
  (exists added,
     themes (snd (discoverThemes throws toUpperCase dir s))
       = themes s ++ added /\
     registry_ok added /\
     match dir with
     | DirListing files =>
         (length added
          <= length (List.filter (fun f => is_theme_file (fst f)) files))%nat
     | _ => added = []
     end) /\
  (forall k d, Map_get k (themes s) = Some d ->
     Map_get k (themes (snd (discoverThemes throws toUpperCase dir s)))
       = Some d) /\
  (registry_ok (themes s) ->
   registry_ok (themes (snd (discoverThemes throws toUpperCase dir s)))) /\
  Forall (fun e => exists m, e = Call m "initialize")
    (effects_since s (snd (discoverThemes throws toUpperCase dir s))) /\
  (dir = DirMissing \/ dir = DirUnreadable ->
   discoverThemes throws toUpperCase dir s = (Returns (), s)).
Proof.
  assert (Hframe :
    fst (discoverThemes throws toUpperCase dir s) = Returns () /\
    activeTheme (snd (discoverThemes throws toUpperCase dir s)) = activeTheme s /\
    store (snd (discoverThemes throws toUpperCase dir s)) = store s /\
    (exists added,
       themes (snd (discoverThemes throws toUpperCase dir s))
         = themes s ++ added /\
       registry_ok added /\
       match dir with
       | DirListing files =>
           (length added
            <= length (List.filter (fun f => is_theme_file (fst f)) files))%nat
       | _ => added = []
       end) /\
    (exists evs,
       trace (snd (discoverThemes throws toUpperCase dir s)) = trace s ++ evs /\
       Forall (fun e => exists m, e = Call m "initialize") evs)).
  { destruct dir as [| | files]; unfold discoverThemes, try_catch; cbn.
    - repeat split; try done; exists []; rewrite app_nil_r; repeat split;
        constructor.
    - repeat split; try done; exists []; rewrite app_nil_r; repeat split;
        constructor.
    - destruct (load_each_spec
                  (List.filter (fun f => is_theme_file (fst f)) files) s)
        as (H0 & H1 & H2 & _ & (added & H4 & H5 & H6) & (evs & H7 & H8 & _)).
      destruct (load_each _ _ _ s) as [[[] |] s']; cbn in *; [| discriminate].
      repeat split; try done.
      + by exists added.
      + by exists evs. }
  destruct Hframe as (H0 & H1 & H2 & (added & H4 & H5 & H6) & (evs & H7 & H8)).
  split; [exact H0 |]. split; [exact H1 |]. split; [exact H2 |].
  split; [by exists added |].
  split; [| split; [| split]].
  - intros k d Hk. rewrite H4. by apply Map_get_app_l.
  - intros Hreg. rewrite H4. by apply Forall_app.
  - unfold effects_since. rewrite H7, drop_app_length. exact H8.
  - by intros [-> | ->].
Qed.

Lemma load_each_skip f b : forall a s,
  is_theme_file (fst f) = true -> skipped f = true ->
  load_each throws toUpperCase (a ++ f :: b) s =
  load_each throws toUpperCase (a ++ b) s.
Proof.
  intros a s Ht Hf. revert s. induction a as [| g a IH]; intros s.
  - cbn [app]. rewrite load_each_cons.
    unfold skipped in Hf. rewrite Ht in Hf. cbn in Hf.
    destruct f as [file [| [instance |] | config]]; cbn in Hf;
      try discriminate; reflexivity.
  - cbn [app]. rewrite !load_each_cons. apply IH.
Qed.

(** A file that is not a theme file, or whose loading throws (at
    [require] or in the constructor of the exported class), does not
    disturb discovery: the outcome is the one without that file. *)
Theorem discovery_skips_bad_files (l1 l2 : list (string * Export))
    (f : string * Export) (s : Manager) :
  skipped f = true ->
  discoverThemes throws toUpperCase (DirListing (l1 ++ f :: l2)) s =
  discoverThemes throws toUpperCase (DirListing (l1 ++ l2)) s.
Proof.
  intros Hf. unfold discoverThemes, try_catch.
  rewrite !List.filter_app. cbn [List.filter].
  destruct (is_theme_file (fst f)) eqn:Ht; [| reflexivity].
  by rewrite load_each_skip.
Qed.

(** *** Well-behaved themes *)

Section WellBehaved.
Hypothesis no_throw : forall tr m method, throws tr m method = false.

Lemma returns_call m method :
  has_method m method = true -> always_returns (call throws m method).
Proof.
  intros Hm s. unfold call. rewrite Hm, no_throw. by eexists _, _.
Qed.

Lemma returns_forward n : always_returns (_forwardEventToTheme throws n).
Proof.
  unfold _forwardEventToTheme. apply returns_get. intros s.
  destruct (activeTheme s) as [a |]; [| apply returns_ret].
  destruct (has_method _ _) eqn:E1; [by apply returns_call |].
  destruct (has_method _ "onEvent") eqn:E2;
    [by apply returns_call | apply returns_ret].
Qed.

Lemma returns_modify f : always_returns (modify f).
Proof. intros s. by eexists _, _. Qed.

Lemma returns_publish event : always_returns (publish throws event).
Proof.
  unfold publish. apply returns_bind; [apply returns_modify |].
  intros _. destruct (String.eqb _ _); [| apply returns_ret].
  apply returns_get. intros s.
  destruct (activeTheme s); [apply returns_forward | apply returns_ret].
Qed.

Lemma returns_activation_tail n :
  always_returns (saveCurrentTheme throws n;; _notifyRendererThemeChanged).
Proof.
  apply returns_bind.
  - unfold saveCurrentTheme. apply returns_bind; [apply returns_modify |].
    intros _. apply returns_bind; [apply returns_publish |].
    intros _. apply returns_publish.
  - intros _. unfold _notifyRendererThemeChanged. apply returns_get. intros s.
    destruct (activeTheme s); [| apply returns_ret].
    unfold sendToRenderer. apply returns_get. intros s'.
    destruct (mainWindow s'); [apply returns_modify | apply returns_ret].
Qed.

Lemma activateTheme_well_behaved s n d :
  registry_ok (themes s) -> Map_get n (themes s) = Some d ->
  fst (activateTheme throws n s) = Returns true.
Proof.
  intros Hreg Hd. rewrite (activateTheme_eq throws s n d Hd). cbn zeta.
  destruct (Map_get_registry_ok _ _ _ Hreg Hd) as (_ & _ & _ & Hact & _).
  rewrite Hact, no_throw.
  set (s2 := set_activeTheme _ _).
  pose proof (returns_activation_tail n s2) as (r & s3 & E).
  unfold mbind, M_bind in E |- *.
  destruct (saveCurrentTheme throws n s2) as [[[] |] s2'] eqn:E1;
    [| discriminate].
  destruct (_notifyRendererThemeChanged s2') as [[[] |] s3'] eqn:E2;
    [reflexivity | discriminate].
Qed.

(** With theme modules that do not throw, [loadSavedTheme()] succeeds
    whenever at least one theme is registered: it activates the saved
    theme if that is registered, else ["default"] if that is, else the
    first registered theme, and stores the name it chose.  With an empty
    registry it returns [false] and changes nothing. *)
Theorem loadSavedTheme_picks_a_theme (s : Manager) :
  registry_ok (themes s) ->
  match saved_choice s with
  | None => themes s = [] /\ loadSavedTheme throws s = (Returns false, s)
  | Some k =>
      exists d, Map_get k (themes s) = Some d /\
                fst (loadSavedTheme throws s) = Returns true /\
                activeTheme (snd (loadSavedTheme throws s)) = Some d /\
                currentTheme (store (snd (loadSavedTheme throws s))) = k
  end.
Proof.
  intros Hreg.
  assert (Hact : forall k, Map_has k (themes s) = true ->
    exists d, Map_get k (themes s) = Some d /\
      fst (activateTheme throws k s) = Returns true /\
      activeTheme (snd (activateTheme throws k s)) = Some d /\
      currentTheme (store (snd (activateTheme throws k s))) = k).
  { intros k Hk. unfold Map_has in Hk.
    destruct (Map_get k (themes s)) as [d |] eqn:Hd; [| discriminate].
    exists d. split; [reflexivity |].
    pose proof (activateTheme_well_behaved s k d Hreg Hd) as Hok.
    split; [exact Hok |].
    split; [exact (proj1 (activateTheme_success throws s k d Hd Hok)) |].
    by apply (activateTheme_stores_name s k d). }
  unfold saved_choice, loadSavedTheme.
  unfold mbind at 1 2 3 4. unfold M_bind at 1 2 3 4. unfold get at 1 2 3 4.
  cbn beta iota zeta.
  destruct (Map_has (if String.eqb (currentTheme (store s)) "" then "default"
                     else currentTheme (store s)) (themes s)) eqn:E1;
    cbn [negb]; [by apply Hact |].
  destruct (Map_has "default" (themes s)) eqn:E2; [by apply Hact |].
  destruct (themes s) as [| [k d] rest] eqn:Eth; [by split |].
  rewrite <- Eth in *. apply Hact.
  unfold Map_has. rewrite Eth. cbn. by rewrite String.eqb_refl.
Qed.

Lemma Map_has_app_l k (m m' : list (string * ThemeData)) :
  Map_has k m = true -> Map_has k (m ++ m') = true.
Proof.
  unfold Map_has. destruct (Map_get k m) as [d |] eqn:E; [| discriminate].
  by rewrite (Map_get_app_l _ _ _ m' E).
Qed.

(** Once a registration has been attempted, repeating it where the
    resulting names are taken does nothing. *)
Lemma registerTheme_settles config x y :
  (forall k, Map_has k (themes (snd (registerTheme throws config x))) = true ->
             Map_has k (themes y) = true) ->
  registerTheme throws config y = (Returns false, y).
Proof.
  intros Hsub. destruct (_validateThemeConfig config) eqn:Hv.
  2:{ unfold registerTheme. by rewrite Hv. }
  destruct config as [c |]; [| discriminate].
  destruct (validate_true_shape c Hv) as (n & dn & m & Hc & _).
  rewrite Hc in Hv, Hsub |- *.
  rewrite (registerTheme_valid throws x _ _ _ _ _ _ Hv) in Hsub.
  rewrite (registerTheme_valid throws y _ _ _ _ _ _ Hv).
  assert (Hn : Map_has n (themes y) = true); [| by rewrite Hn].
  apply Hsub. destruct (Map_has n (themes x)) eqn:Hx; [exact Hx |].
  rewrite no_throw. cbn. unfold Map_has in Hx |- *.
  destruct (Map_get n (themes x)) eqn:Hget; [discriminate |].
  by rewrite (Map_set_fresh _ _ _ Hget), (Map_get_snoc _ _ _ Hget).
Qed.

Lemma load_each_settles fs : forall x y,
  (forall k, Map_has k (themes (snd (load_each throws toUpperCase fs x))) = true ->
             Map_has k (themes y) = true) ->
  load_each throws toUpperCase fs y = (Returns (), y).
Proof.
  induction fs as [| f fs IH]; intros x y Hsub; [reflexivity |].
  rewrite load_each_cons in Hsub. rewrite load_each_cons.
  set (x1 := snd (try_catch (load_theme throws toUpperCase f) (mret tt) x)) in *.
  assert (Hstep : try_catch (load_theme throws toUpperCase f) (mret tt) y
                  = (Returns (), y)).
  { assert (Hx1 : forall k, Map_has k (themes x1) = true ->
                            Map_has k (themes y) = true).
    { intros k Hk. apply Hsub.
      destruct (load_each_spec fs x1)
        as (_ & _ & _ & _ & (added & -> & _) & _).
      by apply Map_has_app_l. }
    clear Hsub IH. subst x1.
    destruct f as [file [| [instance |] | config]];
      unfold load_theme, try_catch, mbind, M_bind in Hx1 |- *;
      cbn [fst snd] in Hx1 |- *; try reflexivity.
    - rewrite registerTheme_settles with (x := x); [reflexivity |].
      intros k Hk. apply Hx1.
      by destruct (registerTheme throws _ x) as [[r |] x'].
    - rewrite registerTheme_settles with (x := x); [reflexivity |].
      intros k Hk. apply Hx1.
      by destruct (registerTheme throws _ x) as [[r |] x']. }
  rewrite Hstep. cbn [snd]. by apply (IH x1).
Qed.

(** With theme modules that do not throw, discovery is idempotent:
    running [discoverThemes()] again over the same directory registers
    nothing, calls nothing and leaves the manager as the first run left
    it. *)
Theorem rediscovery_adds_nothing (dir : ThemesDir) (s : Manager) :
  discoverThemes throws toUpperCase dir
    (snd (discoverThemes throws toUpperCase dir s))
  = (Returns (), snd (discoverThemes throws toUpperCase dir s)).
Proof.
  destruct dir as [| | files]; try reflexivity.
  unfold discoverThemes, try_catch.
  set (fs := List.filter (fun f => is_theme_file (fst f)) files).
  destruct (load_each_spec fs s) as (H0 & _).
  destruct (load_each throws toUpperCase fs s) as [[[] |] s'] eqn:E;
    [| discriminate].
  cbn [snd]. rewrite (load_each_settles fs s s'); [reflexivity |].
  by rewrite E.
Qed.

End WellBehaved.

End MoreFacts.

Lemma unknown_theme_is_refused_witness :
  let th := never_throws in
  let s := snd (activateTheme th "default" (two_themes th)) in
  ("minimal" <> "" /\ Map_get "minimal" (themes s) = None) /\
  activateTheme th "minimal" s = (Returns false, s) /\
  activeTheme s = Some (sample_data "default" 1).
Proof.
  intros th s.
  assert (H1 : "minimal" <> "") by discriminate.
  assert (H2 : Map_get "minimal" (themes s) = None) by reflexivity.
  split; [by split |].
  split; [exact (proj1 (unknown_theme_is_refused th s "minimal" ∅ H1 H2)) |].
  reflexivity.
Defined.

Lemma activation_is_remembered_witness :
  let th := never_throws in
  let s := two_themes th in
  (registry_ok (themes s) /\
   Map_get "farming" (themes s) = Some (sample_data "farming" 2) /\
   fst (activateTheme th "farming" s) = Returns true) /\
  currentTheme (store (snd (activateTheme th "farming" s))) = "farming" /\
  loadSavedTheme th (snd (activateTheme th "farming" s))
    = activateTheme th "farming" (snd (activateTheme th "farming" s)).
Proof.
  intros th s.
  assert (H0 : registry_ok (themes s)) by registry.
  assert (H1 : Map_get "farming" (themes s) = Some (sample_data "farming" 2))
    by reflexivity.
  assert (H2 : fst (activateTheme th "farming" s) = Returns true)
    by reflexivity.
  split; [by repeat split |].
  exact (activation_is_remembered th s "farming" _ H0 H1 H2).
Defined.

Lemma loadSavedTheme_picks_a_theme_witness :
  let th := never_throws in
  let s := snd (registerTheme th (Some (sample_config "farming" 2))
                  (constructor (mkStore "minimal" ∅) true)) in
  ((forall tr m method, th tr m method = false) /\ registry_ok (themes s)) /\
  saved_choice s = Some "farming" /\
  match saved_choice s with
  | None => themes s = [] /\ loadSavedTheme th s = (Returns false, s)
  | Some k =>
      exists d, Map_get k (themes s) = Some d /\
                fst (loadSavedTheme th s) = Returns true /\
                activeTheme (snd (loadSavedTheme th s)) = Some d /\
                currentTheme (store (snd (loadSavedTheme th s))) = k
  end.
Proof.
  intros th s.
  assert (H0 : forall tr m method, th tr m method = false) by reflexivity.
  assert (H1 : registry_ok (themes s)) by registry.
  split; [by split |]. split; [reflexivity |].
  exact (loadSavedTheme_picks_a_theme th H0 s H1).
Defined.



Lemma inactive_update_is_not_announced_witness :
  let th := never_throws in
  let s := snd (activateTheme th "default" (two_themes th)) in
  ("farming" <> "" /\
   Map_get "farming" (themes s) = Some (sample_data "farming" 2) /\
   (forall a, activeTheme s = Some a -> name a <> "farming")) /\
  exists evs,
    trace (snd (updateThemeSettings th (Some "farming") sample_patch s))
      = trace s ++ evs /\
    Forall not_send evs.
Proof.
  intros th s.
  assert (H1 : "farming" <> "") by discriminate.
  assert (H2 : Map_get "farming" (themes s) = Some (sample_data "farming" 2))
    by reflexivity.
  assert (H3 : forall a, activeTheme s = Some a -> name a <> "farming").
  { intros a Ha. injection Ha as <-. discriminate. }
  split; [by repeat split |].
  exact (inactive_update_is_not_announced th s "farming" _ sample_patch
           H1 H2 H3).
Defined.

Lemma registration_only_appends_witness :
  let th := throws_in 2 "initialize" in
  let s := snd (registerTheme th (Some (sample_config "default" 1))
                  (constructor (mkStore "default" ∅) true)) in
  let r := registerTheme th (Some (sample_config "farming" 2)) s in
  fst r = Returns false /\
  effects_since s (snd r) = [Call 2 "initialize"] /\
  themes (snd r) = themes s.
Proof.
  intros th s r.
  assert (H : fst r = Returns false) by reflexivity.
  split; [exact H |]. split; [reflexivity |].
  exact (proj1 (proj2 (proj2 (registration_only_appends th s _))) H).
Defined.

Lemma renderer_events_are_filtered_witness :
  let th := never_throws in
  let s := snd (activateTheme th "default" (two_themes th)) in
  differs (Some "farming") (active_name s) = true /\
  _handleRendererEvent th (Some "farming") "task:next" s = (Returns (), s).
Proof.
  intros th s.
  assert (H : differs (Some "farming") (active_name s) = true) by reflexivity.
  split; [exact H |].
  exact (proj1 (renderer_events_are_filtered th s (Some "farming") "task:next") H).
Defined.

Lemma events_reach_only_the_active_theme_witness :
  let th := never_throws in
  let m := mkModule 1 (lifecycle ++ ["onTasksLoaded"; "onEvent"]) in
  let c := mkConfig (Some "default") (Some "Minimal") None None (AnObject m) None in
  let s := snd (activateTheme th "default"
                  (snd (registerTheme th (Some c)
                          (constructor (mkStore "default" ∅) true)))) in
  activeTheme s = Some (mkData "default" "Minimal" None None m ∅) /\
  effects_since s (snd (deliver th (TasksLoaded true) s))
    = [Call 1 "onTasksLoaded"; Call 1 "onEvent"] /\
  deliver th TimerTick (two_themes th) = (Returns (), two_themes th).
Proof.
  intros th m c s.
  assert (H : activeTheme s = Some (mkData "default" "Minimal" None None m ∅))
    by reflexivity.
  split; [exact H |].
  destruct (events_reach_only_the_active_theme th s (TasksLoaded true))
    as [_ Hact].
  destruct (Hact _ H) as (_ & _ & _ & _ & Hfull).
  split; [exact (Hfull eq_refl) |].
  exact (proj1 (events_reach_only_the_active_theme th (two_themes th) TimerTick)
           eq_refl).
Defined.

Lemma discovery_only_appends_witness :
  let th := never_throws in
  let up := fun x : string => x in
  let dir := DirListing
    [("space-theme.js", ExportsClass (Some (mkModule 3 lifecycle)));
     ("base-theme.js", ExportsClass (Some (mkModule 4 lifecycle)));
     ("broken-theme.js", RequireThrows);
     ("farming-theme.js", ExportsOther (Some (sample_config "farming" 5)))] in
  let s := two_themes th in
  registry_ok (themes s) /\
  registry_ok (themes (snd (discoverThemes th up dir s))) /\
  map fst (themes (snd (discoverThemes th up dir s)))
    = ["default"; "farming"; "space"] /\
  Map_get "farming" (themes (snd (discoverThemes th up dir s)))
    = Some (sample_data "farming" 2).
Proof.
  intros th up dir s.
  assert (H0 : registry_ok (themes s)) by registry.
  assert (H1 : Map_get "farming" (themes s) = Some (sample_data "farming" 2))
    by reflexivity.
  destruct (discovery_only_appends th up dir s)
    as (_ & _ & _ & _ & Hkeep & Hreg & _).
  split; [exact H0 |]. split; [exact (Hreg H0) |].
  split; [reflexivity | exact (Hkeep _ _ H1)].
Defined.

Lemma discovery_skips_bad_files_witness :
  let th := never_throws in
  let up := fun x : string => x in
  let good := ("space-theme.js", ExportsClass (Some (mkModule 3 lifecycle))) in
  let bad := ("broken-theme.js", ExportsClass None) in
  let s := two_themes th in
  skipped bad = true /\
  discoverThemes th up (DirListing ([good] ++ bad :: [])) s
    = discoverThemes th up (DirListing ([good] ++ [])) s.
Proof.
  intros th up good bad s.
  assert (H : skipped bad = true) by reflexivity.
  split; [exact H |].
  exact (discovery_skips_bad_files th up [good] [] bad s H).
Defined.

Lemma rediscovery_adds_nothing_witness :
  let th := never_throws in
  let up := fun x : string => x in
  let dir := DirListing
    [("space-theme.js", ExportsClass (Some (mkModule 3 lifecycle)))] in
  let s := two_themes th in
  (forall tr m method, th tr m method = false) /\
  map fst (themes (snd (discoverThemes th up dir s)))
    = ["default"; "farming"; "space"] /\
  discoverThemes th up dir (snd (discoverThemes th up dir s))
    = (Returns (), snd (discoverThemes th up dir s)).
Proof.
  intros th up dir s.
  assert (H : forall tr m method, th tr m method = false) by reflexivity.
  split; [exact H |]. split; [reflexivity |].
  exact (rediscovery_adds_nothing th up H dir s).
Defined.

End ThemeManagerFacts.
